(** * Device-side assertions: [c10/cuda/CUDADeviceAssertion.h]

    A shallow embedding of the two device functions of the header,
    [dstrcpy] (lines 11-25) and [dsa_add_new_assertion_failure]
    (lines 27-81), and of the macro [CUDA_KERNEL_ASSERT2] (lines 89-108),
    and the properties of the failure-recording protocol.

    - Characters are bytes; a [char] array and the object a [const char*]
      points into are [list byte].  An access outside the list is
      undefined behaviour in C++ and is an error ([None]) here.
    - The 32-bit counters are [Z] with the wrap-around of [atomicAdd]
      written out ([wrap32]).
    - The device threads are a pool of small-step machines whose program
      points are the source lines; a schedule (a list of thread indices)
      picks the thread that executes its next statement.  A statement is
      atomic and memory is sequentially consistent in this model.
    - Nothing in lines 46-65 keeps the index of a call inside the array.
      An assignment of lines 66-76 through [assertions[nid]] with [nid] at
      or past the end of the array goes to memory behind the buffer: it
      leaves the counters and the slots as they are, and the call goes on
      to the next line, through line 80, as the code does.
    - A thread stops at a [Fault] point only where [dstrcpy] on a slot of
      the array leaves its source or its field: what the slot holds from
      there on is not modelled. *)

From Stdlib Require Import ZArith Lia.
From Stdlib.Strings Require Import Byte.
From stdpp Require Import base list.

Local Open Scope Z_scope.

(** ** Memory accesses of the string copier *)

Inductive access : Type :=
| RdSrc (i : nat)              (* an evaluation of [src[i]] *)
| WrDst (i : nat) (c : byte).  (* the assignment [dst[i] = c] *)

Definition reads (tr : list access) : list nat :=
  omap (λ a, match a with RdSrc i => Some i | WrDst _ _ => None end) tr.

Definition writes (tr : list access) : list (nat * byte) :=
  omap (λ a, match a with RdSrc _ => None | WrDst i c => Some (i, c) end) tr.

(** [dst[i] = c], undefined outside the array. *)
Definition store (dst : list byte) (i : nat) (c : byte) : option (list byte) :=
  if decide (i < length dst)%nat then Some (<[i:=c]> dst) else None.

#[global] Instance byte_eq_decision : EqDecision byte := Byte.byte_eq_dec.

(** The index of the first terminator of a source, if it has one. *)
Definition first_nul (src : list byte) : option nat :=
  fst <$> list_find (λ c, c = x00) src.

(** The C string a field holds: the bytes before its first terminator,
    which is what a reader of the field sees. *)
Definition c_str (d : list byte) : option (list byte) :=
  k ← first_nul d; Some (take k d).

(** The first [n] bytes of a zero-initialised array. *)
Definition zeros (n : nat) : list byte := replicate n x00.

Section Device.

(** The two macros, defined in a header that is not among the sources at
    hand: the capacity of a string field and the number of record
    slots. *)
Variable C10_CUDA_DEVICE_SIDE_MAX_STR_LEN : Z.
Variable C10_CUDA_DEVICE_SIDE_ASSERTION_COUNT : Z.

(** ** [dstrcpy] (lines 11-25)

    The loop of line 15.  The condition reads [src[i]] first and tests
    [i < C10_CUDA_DEVICE_SIDE_MAX_STR_LEN - 1] only when the character is
    not the terminator; the body reads [src[i]] again and stores it.
    [fuel] bounds the number of iterations; [dstrcpy] supplies
    [MAX_STR_LEN - 1], which the test never lets the loop exceed, so that
    more fuel changes nothing.  The result is the final [i], the
    destination and the accesses made, in order.  Source and destination
    are distinct objects, as they are at the three call sites. *)
Fixpoint dstrcpy_loop (fuel i : nat) (src dst : list byte)
  : option (nat * list byte * list access) :=
  c ← src !! i;
  if negb (Byte.eqb c x00) && (Z.of_nat i <? C10_CUDA_DEVICE_SIDE_MAX_STR_LEN - 1)
  then
    match fuel with
    | O => None
    | S fuel' =>
        c' ← src !! i;
        dst' ← store dst i c';
        '(j, d, tr) ← dstrcpy_loop fuel' (S i) src dst';
        Some (j, d, RdSrc i :: RdSrc i :: WrDst i c' :: tr)
    end
  else Some (i, dst, [RdSrc i]).

Definition dstrcpy (dst src : list byte) : option (list byte * list access) :=
  '(i, d, tr) ← dstrcpy_loop (Z.to_nat (C10_CUDA_DEVICE_SIDE_MAX_STR_LEN - 1)) 0 src dst;
  if Z.of_nat i =? C10_CUDA_DEVICE_SIDE_MAX_STR_LEN - 1
  then d' ← store d 0 x00; Some (d', tr ++ [WrDst 0 x00])
  else Some (d, tr).

(** ** The assertion buffer

    Modelled from the spec: the declarations of [DeviceAssertionData] and
    [DeviceAssertionsData] are missing; the fields are those the function
    assigns in lines 66-76 and the counters of lines 44, 58-59 and 80,
    with the types the data model gives them. *)
Record dim3 : Type := { dim_x : Z; dim_y : Z; dim_z : Z }.

(** Modelled from the spec: one record slot; the two coordinate arrays
    have three elements, read and written at the constant indices 0-2. *)
Record DeviceAssertionData : Type := {
  assertion_msg : list byte;
  filename : list byte;
  function_name : list byte;
  line_number : Z;
  caller : Z;
  block_id : Z * Z * Z;
  thread_id : Z * Z * Z }.

(** Modelled from the spec: two unsigned 32-bit counters and the array of
    [C10_CUDA_DEVICE_SIDE_ASSERTION_COUNT] slots, in this order; the
    array is the last member, so that what lies at or past its end lies
    behind the buffer. *)
Record DeviceAssertionsData : Type := {
  assertion_count : Z;
  assertion_failure_written : Z;
  assertions : list DeviceAssertionData }.

Definition wrap32 (x : Z) : Z := x mod 2 ^ 32.

(** The buffer as the host hands it over: zero-initialised. *)
Definition zero_record : DeviceAssertionData :=
  let z := zeros (Z.to_nat C10_CUDA_DEVICE_SIDE_MAX_STR_LEN) in
  {| assertion_msg := z; filename := z; function_name := z;
     line_number := 0; caller := 0;
     block_id := (0, 0, 0); thread_id := (0, 0, 0) |}.

Definition zero_buffer : DeviceAssertionsData :=
  {| assertion_count := 0; assertion_failure_written := 0;
     assertions := replicate (Z.to_nat C10_CUDA_DEVICE_SIDE_ASSERTION_COUNT) zero_record |}.

(** ** [dsa_add_new_assertion_failure] (lines 27-81) *)

(** The first argument: null, or the buffer of the launch. *)
Inductive pointer : Type := nullptr | launch_buffer.

Record arguments : Type := {
  assertions_data : pointer;
  assertion_msg0 : list byte;
  filename0 : list byte;
  function_name0 : list byte;
  line_number0 : Z;
  caller0 : Z;
  block_id0 : dim3;
  thread_id0 : dim3 }.

(** The eleven assignments of lines 66-76, and the record field each one
    writes. *)
Inductive stmt : Type :=
  S66 | S67 | S68 | S69 | S70 | S71 | S72 | S73 | S74 | S75 | S76.

Inductive field : Type :=
  f_assertion_msg | f_filename | f_function_name | f_line_number
| f_caller | f_block_id | f_thread_id.

Definition field_of (s : stmt) : field :=
  match s with
  | S66 => f_assertion_msg | S67 => f_filename | S68 => f_function_name
  | S69 => f_line_number | S70 => f_caller
  | S71 | S72 | S73 => f_block_id
  | S74 | S75 | S76 => f_thread_id
  end.

Definition all_stmts : list stmt :=
  [S66; S67; S68; S69; S70; S71; S72; S73; S74; S75; S76].

(** Program points: the source line about to be executed. *)
Inductive pc : Type :=
| L39                (* the null test *)
| L44                (* atomicAdd on assertion_count *)
| L46                (* the capacity test *)
| L58                (* the condition of the busy-wait *)
| LW (s : stmt)      (* one of the assignments 66-76 *)
| L80                (* atomicAdd on assertion_failure_written *)
| Returned
| Fault (s : stmt).  (* [dstrcpy] of assignment [s] undefined on its slot *)

Definition next_pc (s : stmt) : pc :=
  match s with
  | S66 => LW S67 | S67 => LW S68 | S68 => LW S69 | S69 => LW S70
  | S70 => LW S71 | S71 => LW S72 | S72 => LW S73 | S73 => LW S74
  | S74 => LW S75 | S75 => LW S76 | S76 => L80
  end.

(** What a call has done to shared memory, in program order. *)
Inductive mutation : Type :=
| MCount                       (* assertion_count incremented *)
| MStmt (s : stmt) (nid : Z)   (* assignment [s] executed on assertions[nid] *)
| MWritten.                    (* assertion_failure_written incremented *)

(** One call in progress: its arguments, the local [nid] once line 44 has
    run, the program point, and the record of its mutations. *)
Record thread : Type := {
  t_args : arguments;
  t_nid : option Z;
  t_pc : pc;
  t_log : list mutation }.

Definition entry (a : arguments) : thread :=
  {| t_args := a; t_nid := None; t_pc := L39; t_log := [] |}.

(** A call that has reserved [nid] and stands at the test of line 46. *)
Definition at_test (nid : Z) (a : arguments) : thread :=
  {| t_args := a; t_nid := Some nid; t_pc := L46; t_log := [MCount] |}.

Definition goto (l : pc) (t : thread) : thread :=
  {| t_args := t_args t; t_nid := t_nid t; t_pc := l; t_log := t_log t |}.

Definition logged (m : mutation) (t : thread) : thread :=
  {| t_args := t_args t; t_nid := t_nid t; t_pc := t_pc t; t_log := t_log t ++ [m] |}.

(** The right-hand sides of lines 66-76 applied to the slot [self]. *)
Definition exec_stmt (s : stmt) (a : arguments) (self : DeviceAssertionData)
  : option DeviceAssertionData :=
  let '{| assertion_msg := msg; filename := fn; function_name := fu;
          line_number := ln; caller := ca;
          block_id := (b0, b1, b2); thread_id := (t0, t1, t2) |} := self in
  let mk msg fn fu ln ca b t :=
    {| assertion_msg := msg; filename := fn; function_name := fu;
       line_number := ln; caller := ca; block_id := b; thread_id := t |} in
  match s with
  | S66 => d ← dstrcpy msg (assertion_msg0 a);
           Some (mk d.1 fn fu ln ca (b0, b1, b2) (t0, t1, t2))
  | S67 => d ← dstrcpy fn (filename0 a);
           Some (mk msg d.1 fu ln ca (b0, b1, b2) (t0, t1, t2))
  | S68 => d ← dstrcpy fu (function_name0 a);
           Some (mk msg fn d.1 ln ca (b0, b1, b2) (t0, t1, t2))
  | S69 => Some (mk msg fn fu (line_number0 a) ca (b0, b1, b2) (t0, t1, t2))
  | S70 => Some (mk msg fn fu ln (caller0 a) (b0, b1, b2) (t0, t1, t2))
  | S71 => Some (mk msg fn fu ln ca (dim_x (block_id0 a), b1, b2) (t0, t1, t2))
  | S72 => Some (mk msg fn fu ln ca (b0, dim_y (block_id0 a), b2) (t0, t1, t2))
  | S73 => Some (mk msg fn fu ln ca (b0, b1, dim_z (block_id0 a)) (t0, t1, t2))
  | S74 => Some (mk msg fn fu ln ca (b0, b1, b2) (dim_x (thread_id0 a), t1, t2))
  | S75 => Some (mk msg fn fu ln ca (b0, b1, b2) (t0, dim_y (thread_id0 a), t2))
  | S76 => Some (mk msg fn fu ln ca (b0, b1, b2) (t0, t1, dim_z (thread_id0 a)))
  end.

(** [assertions[nid]] is at or past the end of the array: memory behind
    the buffer. *)
Definition behind (b : DeviceAssertionsData) (nid : Z) : bool :=
  Z.of_nat (length (assertions b)) <=? nid.

(** [self = assertions[nid]] (line 65) followed by assignment [s].
    Line 65 forms the reference without a test of its own.  When [nid] is
    inside the array, the assignment changes that slot.  When it is at or
    past the end, [self] is memory behind the buffer: the assignment
    writes there, and into that record only (the stores of [dstrcpy]
    stay inside the field it is given), so that the buffer is as it
    was.  The result is the buffer after the assignment; there is none
    when [dstrcpy] on a slot is undefined (the unsigned counter gives no
    negative index). *)
Definition write_slot (b : DeviceAssertionsData) (nid : Z) (s : stmt) (a : arguments)
  : option DeviceAssertionsData :=
  if behind b nid then Some b
  else
    self ← (if decide (0 ≤ nid) then assertions b !! Z.to_nat nid else None);
    self' ← exec_stmt s a self;
    Some {| assertion_count := assertion_count b;
            assertion_failure_written := assertion_failure_written b;
            assertions := <[Z.to_nat nid := self']> (assertions b) |}.

(** [dsa_add_new_assertion_failure] as a transition function: the call
    [t] executes the statement at its program point on the shared
    buffer.  [atomicAdd] returns the old value of the counter.
    The test of line 46 compares the index with the macro as it stands;
    the condition of line 58 reads both counters in one step.  After an
    assignment of lines 66-76 the call goes on to the next line, whether
    the assignment went to a slot or behind the buffer ([write_slot]). *)
Definition dsa_add_new_assertion_failure (b : DeviceAssertionsData) (t : thread)
  : DeviceAssertionsData * thread :=
  match t_pc t with
  | L39 =>
      match assertions_data (t_args t) with
      | nullptr => (b, goto Returned t)
      | launch_buffer => (b, goto L44 t)
      end
  | L44 =>
      ({| assertion_count := wrap32 (assertion_count b + 1);
          assertion_failure_written := assertion_failure_written b;
          assertions := assertions b |},
       {| t_args := t_args t; t_nid := Some (assertion_count b);
          t_pc := L46; t_log := t_log t ++ [MCount] |})
  | L46 =>
      match t_nid t with
      | Some nid =>
          if nid >? C10_CUDA_DEVICE_SIDE_ASSERTION_COUNT
          then (b, goto L58 t)
          else (b, goto (LW S66) t)
      | None => (b, t)
      end
  | L58 =>
      if assertion_failure_written b <? assertion_count b
      then (b, t)
      else (b, goto Returned t)
  | LW s =>
      match t_nid t with
      | Some nid =>
          match write_slot b nid s (t_args t) with
          | Some b' => (b', goto (next_pc s) (logged (MStmt s nid) t))
          | None => (* [dstrcpy] undefined on the slot *)
              (b, goto (Fault s) (logged (MStmt s nid) t))
          end
      | None => (b, t)
      end
  | L80 =>
      ({| assertion_count := assertion_count b;
          assertion_failure_written := wrap32 (assertion_failure_written b + 1);
          assertions := assertions b |},
       goto Returned (logged MWritten t))
  | Returned | Fault _ => (b, t)
  end.

(** ** The launch: a pool of threads over one buffer *)

Record state : Type := { buf : DeviceAssertionsData; pool : list thread }.

Definition launch (calls : list arguments) : state :=
  {| buf := zero_buffer; pool := entry <$> calls |}.

(** Thread [i] executes its next statement. *)
Definition step (s : state) (i : nat) : state :=
  match pool s !! i with
  | Some t =>
      let '(b', t') := dsa_add_new_assertion_failure (buf s) t in
      {| buf := b'; pool := <[i:=t']> (pool s) |}
  | None => s
  end.

Definition run (sched : list nat) (s : state) : state := foldl step s sched.

(** The schedule in which the calls run one after the other, each for
    [k] statements. *)
Definition one_by_one (n k : nat) : list nat :=
  i ← seq 0 n; replicate k i.

(** The states one call passes through, whatever the other threads have
    made of the buffer before each of its statements. *)
Inductive call_reaches (a : arguments) : thread → Prop :=
| reaches_entry : call_reaches a (entry a)
| reaches_step (b : DeviceAssertionsData) (t : thread) :
    call_reaches a t → call_reaches a (dsa_add_new_assertion_failure b t).2.

(** ** Bookkeeping for the proofs *)

(** The number of threads of a pool that satisfy [P]. *)
Fixpoint tally (P : thread → bool) (l : list thread) : Z :=
  match l with
  | [] => 0
  | t :: l => (if P t then 1 else 0) + tally P l
  end.

(** The thread has executed line 44. *)
Definition reserved (t : thread) : bool :=
  match t_nid t with Some _ => true | None => false end.

(** The thread has executed line 80. *)
Definition published (t : thread) : bool :=
  match last (t_log t) with Some MWritten => true | _ => false end.

(** The call has returned after it had reserved an index in line 44. *)
Definition returned_with_index (t : thread) : bool :=
  match t_pc t, t_nid t with
  | Returned, Some _ => true
  | _, _ => false
  end.

Definition faulted (t : thread) : bool :=
  match t_pc t with Fault _ => true | _ => false end.

(** The assignments a call has executed, in order. *)
Definition logged_stmts (l : list mutation) : list stmt :=
  omap (λ m, match m with MStmt s _ => Some s | _ => None end) l.

(** The record that assignments [l] of a call with arguments [a] leave
    in a slot that held [r]. *)
Definition fill (l : list stmt) (a : arguments) (r : DeviceAssertionData)
  : option DeviceAssertionData :=
  foldl (λ o s, o ≫= exec_stmt s a) (Some r) l.

(** The record of a call with arguments [a] once its three strings have
    been copied as [msg], [file] and [func]. *)
Definition record_of (a : arguments) (msg file func : list byte)
  : DeviceAssertionData :=
  {| assertion_msg := msg; filename := file; function_name := func;
     line_number := line_number0 a; caller := caller0 a;
     block_id := (dim_x (block_id0 a), dim_y (block_id0 a), dim_z (block_id0 a));
     thread_id := (dim_x (thread_id0 a), dim_y (thread_id0 a), dim_z (thread_id0 a)) |}.

Definition stmt_index (s : stmt) : nat :=
  match s with
  | S66 => 0 | S67 => 1 | S68 => 2 | S69 => 3 | S70 => 4 | S71 => 5
  | S72 => 6 | S73 => 7 | S74 => 8 | S75 => 9 | S76 => 10
  end%nat.

Definition stmts_before (s : stmt) : list stmt := take (stmt_index s) all_stmts.

(** The log of a call that has reserved [nid] and executed assignments
    [l]. *)
Definition log_of (nid : Z) (l : list stmt) : list mutation :=
  MCount :: ((λ s, MStmt s nid) <$> l).

(** What the program point of a call says about its local [nid] and
    about the mutations it has made. *)
Definition coherent (t : thread) : Prop :=
  match t_pc t with
  | L39 | L44 => t_nid t = None ∧ t_log t = []
  | L46 => ∃ nid, t_nid t = Some nid ∧ t_log t = [MCount]
  | L58 =>
      ∃ nid, t_nid t = Some nid ∧ t_log t = [MCount]
           ∧ C10_CUDA_DEVICE_SIDE_ASSERTION_COUNT < nid
  | LW s =>
      ∃ nid, t_nid t = Some nid ∧ t_log t = log_of nid (stmts_before s)
           ∧ nid ≤ C10_CUDA_DEVICE_SIDE_ASSERTION_COUNT
  | Fault s =>
      ∃ nid, t_nid t = Some nid ∧ t_log t = log_of nid (stmts_before s ++ [s])
           ∧ nid ≤ C10_CUDA_DEVICE_SIDE_ASSERTION_COUNT
  | L80 =>
      ∃ nid, t_nid t = Some nid ∧ t_log t = log_of nid all_stmts
           ∧ nid ≤ C10_CUDA_DEVICE_SIDE_ASSERTION_COUNT
  | Returned =>
      (assertions_data (t_args t) = nullptr ∧ t_nid t = None ∧ t_log t = [])
      ∨ (∃ nid, t_nid t = Some nid ∧ t_log t = [MCount]
              ∧ C10_CUDA_DEVICE_SIDE_ASSERTION_COUNT < nid)
      ∨ (∃ nid, t_nid t = Some nid ∧ t_log t = log_of nid all_stmts ++ [MWritten]
              ∧ nid ≤ C10_CUDA_DEVICE_SIDE_ASSERTION_COUNT)
  end.

(** The invariant of a launch. *)
Record invariant (s : state) : Prop := {
  inv_slots :
    length (assertions (buf s)) = Z.to_nat C10_CUDA_DEVICE_SIDE_ASSERTION_COUNT;
  inv_coherent : ∀ i t, pool s !! i = Some t → coherent t;
  inv_count : assertion_count (buf s) = tally reserved (pool s);
  inv_written : assertion_failure_written (buf s) = tally published (pool s);
  inv_nid_below : ∀ i t nid,
    pool s !! i = Some t → t_nid t = Some nid →
    0 ≤ nid < assertion_count (buf s);
  inv_nid_distinct : ∀ i j t t' nid,
    pool s !! i = Some t → pool s !! j = Some t' →
    t_nid t = Some nid → t_nid t' = Some nid → i = j;
  inv_slot : ∀ i t nid,
    pool s !! i = Some t → t_nid t = Some nid → faulted t = false →
    nid < C10_CUDA_DEVICE_SIDE_ASSERTION_COUNT →
    assertions (buf s) !! Z.to_nat nid
    = fill (logged_stmts (t_log t)) (t_args t) zero_record;
  inv_free : ∀ n,
    assertion_count (buf s) ≤ n < C10_CUDA_DEVICE_SIDE_ASSERTION_COUNT →
    assertions (buf s) !! Z.to_nat n = Some zero_record }.

(** ** Progress of a call *)

(** The number of statements a call has executed when it stands at a
    program point on the way from line 39 through line 80. *)
Definition rank (l : pc) : nat :=
  match l with
  | L39 => 0 | L44 => 1 | L46 => 2
  | LW s => 3 + stmt_index s
  | L80 => 14
  | L58 | Returned | Fault _ => 15
  end%nat.

(** The number of statements a schedule gives to thread [i]. *)
Definition own_steps (i : nat) (sched : list nat) : nat :=
  length (filter (λ j, j = i) sched).

(** What [dstrcpy] keeps of a source whose terminator is at [k]: the
    string when it is shorter than [MAX_STR_LEN - 1] characters, and
    nothing otherwise. *)
Definition kept_string (k : nat) (src : list byte) : list byte :=
  if decide (Z.of_nat k < C10_CUDA_DEVICE_SIDE_MAX_STR_LEN - 1) then take k src else [].

(** The three source strings of a call are C strings. *)
Definition c_strings (a : arguments) : Prop :=
  is_Some (first_nul (assertion_msg0 a))
  ∧ is_Some (first_nul (filename0 a))
  ∧ is_Some (first_nul (function_name0 a)).

(** ** The value of a field of a record *)

Inductive field_value : Type :=
| StringV (s : list byte)
| IntV (z : Z)
| CoordV (v : Z * Z * Z).

Definition get_field (f : field) (r : DeviceAssertionData) : field_value :=
  match f with
  | f_assertion_msg => StringV (assertion_msg r)
  | f_filename => StringV (filename r)
  | f_function_name => StringV (function_name r)
  | f_line_number => IntV (line_number r)
  | f_caller => IntV (caller r)
  | f_block_id => CoordV (block_id r)
  | f_thread_id => CoordV (thread_id r)
  end.

(** ** [CUDA_KERNEL_ASSERT2] (lines 89-108)

    A kernel thread at the macro: its condition as evaluated in line 91,
    the arguments the macro passes in lines 94-101, and where it stands:
    at the test, in the call, trapped by line 106 after the call returned,
    or past the macro. *)
Inductive kernel_pc : Type :=
| K91
| K93 (t : thread)
| K106 (t : thread)
| KPast.

Record kernel_thread : Type := {
  k_condition : bool;
  k_arguments : arguments;
  k_pc : kernel_pc }.

Definition at_macro (ca : bool * arguments) : kernel_thread :=
  {| k_condition := ca.1; k_arguments := ca.2; k_pc := K91 |}.

Definition kgoto (l : kernel_pc) (k : kernel_thread) : kernel_thread :=
  {| k_condition := k_condition k; k_arguments := k_arguments k; k_pc := l |}.

(** One statement of a kernel thread in the macro; the statements of the
    call are those of [dsa_add_new_assertion_failure], and the trap
    follows its return. *)
Definition CUDA_KERNEL_ASSERT2 (b : DeviceAssertionsData) (k : kernel_thread)
  : DeviceAssertionsData * kernel_thread :=
  match k_pc k with
  | K91 =>
      if negb (k_condition k)
      then (b, kgoto (K93 (entry (k_arguments k))) k)
      else (b, kgoto KPast k)
  | K93 t =>
      match t_pc t with
      | Returned => (b, kgoto (K106 t) k)
      | _ => let '(b', t') := dsa_add_new_assertion_failure b t in
             (b', kgoto (K93 t') k)
      end
  | K106 _ | KPast => (b, k)
  end.

Record kernel_state : Type := {
  k_buf : DeviceAssertionsData;
  k_pool : list kernel_thread }.

Definition kernel_launch (threads : list (bool * arguments)) : kernel_state :=
  {| k_buf := zero_buffer; k_pool := at_macro <$> threads |}.

Definition kernel_step (s : kernel_state) (i : nat) : kernel_state :=
  match k_pool s !! i with
  | Some k =>
      let '(b', k') := CUDA_KERNEL_ASSERT2 (k_buf s) k in
      {| k_buf := b'; k_pool := <[i:=k']> (k_pool s) |}
  | None => s
  end.

Definition kernel_run (sched : list nat) (s : kernel_state) : kernel_state :=
  foldl kernel_step s sched.

(** The call of a kernel thread: not yet entered while the thread is at
    the test or past the macro. *)
Definition call_of (k : kernel_thread) : thread :=
  match k_pc k with
  | K91 | KPast => entry (k_arguments k)
  | K93 t | K106 t => t
  end.

(** The calls of a kernel state, as a launch of the recorder. *)
Definition calls_of (s : kernel_state) : state :=
  {| buf := k_buf s; pool := call_of <$> k_pool s |}.

End Device.

(** ** Concrete inputs: the scenarios of the specification *)

Definition cstring (s : list byte) : list byte := s ++ [x00].

Definition hello : list byte := cstring [x68; x65; x6c; x6c; x6f].
Definition helloworld : list byte :=
  cstring [x68; x65; x6c; x6c; x6f; x77; x6f; x72; x6c; x64].

(** A destination of eight bytes that holds no zero. *)
Definition dirty8 : list byte := replicate 8 x78.

(** "helloworld" copied into it: the cleared destination and the accesses
    of the call. *)
Definition helloworld_copy : list byte * list access :=
  ([x00; x65; x6c; x6c; x6f; x77; x6f; x78],
   [RdSrc 0; RdSrc 0; WrDst 0 x68; RdSrc 1; RdSrc 1; WrDst 1 x65;
    RdSrc 2; RdSrc 2; WrDst 2 x6c; RdSrc 3; RdSrc 3; WrDst 3 x6c;
    RdSrc 4; RdSrc 4; WrDst 4 x6f; RdSrc 5; RdSrc 5; WrDst 5 x77;
    RdSrc 6; RdSrc 6; WrDst 6 x6f; RdSrc 7; WrDst 0 x00]).

(** Six failing threads of one kernel, with the messages "0" to "5". *)
Definition failing_call (digit : byte) (line : Z) (x : Z) : arguments :=
  {| assertions_data := launch_buffer;
     assertion_msg0 := cstring [digit];
     filename0 := cstring [x61; x2e; x63; x75];
     function_name0 := cstring [x6b];
     line_number0 := line;
     caller0 := 7;
     block_id0 := {| dim_x := 0; dim_y := 0; dim_z := 0 |};
     thread_id0 := {| dim_x := x; dim_y := 0; dim_z := 0 |} |}.

Definition six_calls : list arguments :=
  [failing_call x30 10 0; failing_call x31 11 1; failing_call x32 12 2;
   failing_call x33 13 3; failing_call x34 14 4; failing_call x35 15 5].

(** The same call when assertions are disabled at run time. *)
Definition disabled_call : arguments :=
  {| assertions_data := nullptr;
     assertion_msg0 := cstring [x30];
     filename0 := cstring [x61; x2e; x63; x75];
     function_name0 := cstring [x6b];
     line_number0 := 10;
     caller0 := 7;
     block_id0 := {| dim_x := 0; dim_y := 0; dim_z := 0 |};
     thread_id0 := {| dim_x := 0; dim_y := 0; dim_z := 0 |} |}.

(** A buffer of four slots with strings of eight bytes, after [n]
    reservations and nothing else. *)
Definition reserved_buffer (n : Z) : DeviceAssertionsData :=
  {| assertion_count := n; assertion_failure_written := 0;
     assertions := assertions (zero_buffer 8 4) |}.

(** The sixth of the six calls after lines 39, 44 and 46, the first five
    having reserved before it. *)
Definition sixth_in_wait : thread :=
  let t0 := entry (failing_call x35 15 5) in
  let t1 := (dsa_add_new_assertion_failure 8 4 (reserved_buffer 5) t0).2 in
  let t2 := (dsa_add_new_assertion_failure 8 4 (reserved_buffer 5) t1).2 in
  (dsa_add_new_assertion_failure 8 4 (reserved_buffer 6) t2).2.

(** The first of the six calls, returned with index 0. *)
Definition first_returned : thread :=
  {| t_args := failing_call x30 10 0; t_nid := Some 0; t_pc := Returned;
     t_log := log_of 0 all_stmts ++ [MWritten] |}.

(** The fifth of the six calls, returned with index 4, the capacity. *)
Definition fifth_returned : thread :=
  {| t_args := failing_call x34 14 4; t_nid := Some 4; t_pc := Returned;
     t_log := log_of 4 all_stmts ++ [MWritten] |}.

(** The six calls as kernel threads whose assertions fail, and as kernel
    threads whose assertions hold. *)
Definition six_failing : list (bool * arguments) := (λ a, (false, a)) <$> six_calls.
Definition six_passing : list (bool * arguments) := (λ a, (true, a)) <$> six_calls.

(** The first kernel thread, trapped. *)
Definition first_trapped : kernel_thread :=
  {| k_condition := false; k_arguments := failing_call x30 10 0;
     k_pc := K106 first_returned |}.

(** The fifth kernel thread, trapped. *)
Definition fifth_trapped : kernel_thread :=
  {| k_condition := false; k_arguments := failing_call x34 14 4;
     k_pc := K106 fifth_returned |}.

(** * Properties *)

Section Copier.

Context (N : Z).

Lemma is_nul_false (c : byte) : c ≠ x00 → Byte.eqb c x00 = false.
Proof.
  intros Hc. destruct (Byte.eqb c x00) eqn:E; [|done].
  by apply Byte.byte_dec_bl in E.
Qed.

Lemma store_Some (dst : list byte) (i : nat) (c : byte) :
  (i < length dst)%nat → store dst i c = Some (<[i:=c]> dst).
Proof. intros. unfold store. by rewrite decide_True. Qed.

(** The loop, when it runs for [n] more iterations from [i]: the bytes
    [i .. i+n-1] of the source are not the terminator and lie below
    the bound, and the loop stops at [i+n] on a terminator or on the
    bound. *)
Lemma dstrcpy_loop_spec (n : nat) : ∀ (fuel i : nat) (src dst : list byte),
  (∀ m, i ≤ m < i + n → ∃ c, src !! m = Some c ∧ c ≠ x00)%nat →
  Z.of_nat (i + n) ≤ N - 1 →
  (∃ c, src !! (i + n)%nat = Some c ∧ (c = x00 ∨ Z.of_nat (i + n) = N - 1)) →
  (i + n ≤ length dst)%nat →
  (n ≤ fuel)%nat →
  ∃ tr, dstrcpy_loop N fuel i src dst
        = Some ((i + n)%nat, take i dst ++ take n (drop i src) ++ drop (i + n) dst, tr)
      ∧ (∀ m, m ∈ reads tr → (i ≤ m ≤ i + n)%nat)
      ∧ writes tr = zip (seq i n) (take n (drop i src)).
Proof.
  induction n as [|n IH]; intros fuel i src dst Hbody Hbound Hstop Hdst Hfuel.
  - destruct Hstop as (c & Hc & Hwhy). rewrite Nat.add_0_r in *.
    exists [RdSrc i]. split_and!; [| |reflexivity].
    2:{ intros m Hm%list_elem_of_singleton. lia. }
    assert (negb (Byte.eqb c x00) && (Z.of_nat i <? N - 1) = false) as Hcond.
    { destruct Hwhy as [->|Hi]; [reflexivity|].
      apply andb_false_iff; right; apply Z.ltb_ge; lia. }
    destruct fuel; simpl; rewrite Hc; simpl; rewrite Hcond.
    all: by rewrite take_drop.
  - destruct fuel as [|fuel]; [lia|].
    destruct (Hbody i) as (c & Hc & Hnz); [lia|].
    destruct (IH fuel (S i) src (<[i:=c]> dst)) as (tr & Hloop & Hrd & Hwr).
    + intros m Hm. apply Hbody. lia.
    + lia.
    + by replace (S i + n)%nat with (i + S n)%nat by lia.
    + rewrite length_insert. lia.
    + lia.
    + exists (RdSrc i :: RdSrc i :: WrDst i c :: tr). split_and!.
      * simpl. rewrite Hc. simpl. rewrite (is_nul_false c Hnz). simpl.
        replace (Z.of_nat i <? N - 1) with true by (symmetry; apply Z.ltb_lt; lia).
        rewrite store_Some by lia. simpl. rewrite Hloop. simpl.
        replace (S i + n)%nat with (i + S n)%nat by lia.
        do 3 f_equal; [lia|].
        rewrite (drop_S src c i Hc). simpl.
        rewrite take_insert_lt by lia.
        rewrite drop_insert_lt by lia.
        destruct (lookup_lt_is_Some_2 dst i) as [x Hx]; [lia|].
        rewrite (take_S_r dst i x Hx).
        rewrite insert_app_r_alt by (rewrite length_take; lia).
        rewrite length_take, Nat.min_l, Nat.sub_diag by lia. simpl.
        rewrite <- app_assoc. simpl. by replace (S (i + n)) with (i + S n)%nat by lia.
      * intros m. simpl. rewrite !elem_of_cons.
        intros [->|[->|Hm%Hrd]]; lia.
      * simpl. rewrite Hwr. by rewrite (drop_S src c i Hc).
Qed.

(** The bound of the loop is the test of line 15, not the fuel: from
    [i], fuel [N - 1 - i] is as good as any larger amount. *)
Lemma dstrcpy_loop_fuel (fuel : nat) : ∀ (fuel' i : nat) (src dst : list byte),
  N - 1 - Z.of_nat i ≤ Z.of_nat fuel → (fuel ≤ fuel')%nat →
  dstrcpy_loop N fuel' i src dst = dstrcpy_loop N fuel i src dst.
Proof.
  induction fuel as [|fuel IH]; intros fuel' i src dst Hfuel Hle.
  - assert ((Z.of_nat i <? N - 1) = false) as Htest by (apply Z.ltb_ge; lia).
    destruct fuel'; simpl; destruct (src !! i) as [c|]; simpl; try done.
    all: by rewrite Htest, andb_false_r.
  - destruct fuel' as [|fuel']; [lia|]. simpl.
    destruct (src !! i) as [c|]; simpl; [|done].
    destruct (negb (Byte.eqb c x00) && (Z.of_nat i <? N - 1)); [|done].
    destruct (store dst i c) as [dst'|]; simpl; [|done].
    rewrite (IH fuel' (S i)) by lia. done.
Qed.

(** A source whose first terminator is at [k], below the bound: the loop
    stops on the terminator, having copied the [k] bytes before it. *)
Lemma dstrcpy_terminated (dst src : list byte) (k : nat) :
  src !! k = Some x00 →
  (∀ m c, (m < k)%nat → src !! m = Some c → c ≠ x00) →
  Z.of_nat k < N - 1 →
  (k ≤ length dst)%nat →
  ∃ tr, dstrcpy N dst src = Some (take k src ++ drop k dst, tr)
      ∧ (∀ m, m ∈ reads tr → (m ≤ k)%nat)
      ∧ writes tr = zip (seq 0 k) (take k src).
Proof.
  intros Hk Hfirst Hlt Hdst.
  destruct (dstrcpy_loop_spec k (Z.to_nat (N - 1)) 0 src dst)
    as (tr & Hloop & Hrd & Hwr); simpl.
  - intros m Hm. destruct (lookup_lt_is_Some_2 src m) as [c Hc].
    { apply lookup_lt_Some in Hk. lia. }
    exists c. split; [done|]. apply (Hfirst m); [lia|done].
  - lia.
  - exists x00. by split; [|left].
  - done.
  - lia.
  - exists tr. rewrite drop_0 in Hwr. split_and!; [|intros m Hm%Hrd; lia|done].
    unfold dstrcpy. rewrite Hloop. simpl.
    replace (Z.of_nat k =? N - 1) with false by (symmetry; apply Z.eqb_neq; lia).
    by rewrite drop_0.
Qed.

(** A source with no terminator among its first [N-1] bytes: the loop
    stops on the bound, and line 23 clears the first byte. *)
Lemma dstrcpy_truncated (dst src : list byte) :
  let n := Z.to_nat (N - 1) in
  0 < N →
  (∀ m c, (m < n)%nat → src !! m = Some c → c ≠ x00) →
  (n < length src)%nat →
  (n ≤ length dst)%nat → (0 < length dst)%nat →
  ∃ tr, dstrcpy N dst src = Some (<[0%nat:=x00]> (take n src ++ drop n dst), tr)
      ∧ (∀ m, m ∈ reads tr → (m ≤ n)%nat)
      ∧ writes tr = zip (seq 0 n) (take n src) ++ [(0%nat, x00)].
Proof.
  intros n HN Hnz Hsrc Hdst Hdst0.
  destruct (dstrcpy_loop_spec n (Z.to_nat (N - 1)) 0 src dst)
    as (tr & Hloop & Hrd & Hwr); simpl.
  - intros m Hm. destruct (lookup_lt_is_Some_2 src m) as [c Hc]; [lia|].
    exists c. split; [done|]. apply (Hnz m); [lia|done].
  - lia.
  - destruct (lookup_lt_is_Some_2 src n) as [c Hc]; [lia|].
    exists c. split; [done|]. right. lia.
  - done.
  - done.
  - exists (tr ++ [WrDst 0 x00]). unfold dstrcpy. rewrite Hloop. simpl.
    replace (Z.of_nat n =? N - 1) with true by (symmetry; apply Z.eqb_eq; lia).
    rewrite drop_0 in *. rewrite store_Some.
    2:{ rewrite length_app, length_take, length_drop. lia. }
    split_and!; [done| |].
    + intros m. unfold reads in *. rewrite omap_app. simpl. rewrite app_nil_r.
      intros Hm%Hrd. lia.
    + unfold writes in *. by rewrite omap_app, Hwr.
Qed.

Lemma first_nul_Some (src : list byte) (k : nat) :
  first_nul src = Some k →
  src !! k = Some x00 ∧ ∀ m c, (m < k)%nat → src !! m = Some c → c ≠ x00.
Proof.
  unfold first_nul. intros H.
  destruct (list_find _ src) as [[i x]|] eqn:E; simplify_eq/=.
  apply list_find_Some in E as (Hk & -> & Hmin). split; [done|].
  intros m c Hm Hc. by apply (Hmin m c).
Qed.

Lemma first_nul_None (src : list byte) (m : nat) (c : byte) :
  first_nul src = None → src !! m = Some c → c ≠ x00.
Proof.
  unfold first_nul. intros H Hc.
  destruct (list_find _ src) as [[i x]|] eqn:E; simplify_eq/=.
  apply list_find_None in E. rewrite Forall_forall in E.
  apply E. apply list_elem_of_lookup. eauto.
Qed.

Lemma writes_below (n : nat) (l : list byte) (i : nat) (c : byte) :
  (i, c) ∈ zip (seq 0 n) l → (i < n)%nat.
Proof. intros H%elem_of_zip_l. apply elem_of_seq in H. lia. Qed.

(** C2: a source whose terminator lies before index [N-1] is copied up
    to, but not including, the terminator: the destination byte at the
    terminator's index is the one that was there before the call, and no
    write of the call touches it. *)
Theorem dstrcpy_terminator_not_copied (dst src : list byte) (k : nat) :
  first_nul src = Some k →
  Z.of_nat k < N - 1 →
  length dst = Z.to_nat N →
  ∃ d tr, dstrcpy N dst src = Some (d, tr)
        ∧ d = take k src ++ drop k dst
        ∧ d !! k = dst !! k
        ∧ ∀ c, (k, c) ∉ writes tr.
Proof.
  intros [Hk Hfirst]%first_nul_Some Hlt Hlen.
  destruct (dstrcpy_terminated dst src k) as (tr & Hrun & _ & Hwr); [done..|lia|].
  exists (take k src ++ drop k dst), tr. split_and!; [done..| |].
  - apply lookup_lt_Some in Hk.
    rewrite lookup_app_r; rewrite length_take, Nat.min_l by lia; [|lia].
    by rewrite lookup_drop, Nat.sub_diag, Nat.add_0_r.
  - intros c Hc. rewrite Hwr in Hc. apply writes_below in Hc. lia.
Qed.

(** In a zero-initialised field, as the slots of the buffer are when a
    call fills them, the bytes the copy leaves alone are zeros: the field
    then holds the source string followed by zeros. *)
Lemma dstrcpy_zeroed (src : list byte) (k : nat) :
  first_nul src = Some k →
  Z.of_nat k < N - 1 →
  ∃ tr, dstrcpy N (zeros (Z.to_nat N)) src
        = Some (take k src ++ zeros (Z.to_nat N - k), tr).
Proof.
  intros [Hk Hfirst]%first_nul_Some Hlt.
  destruct (dstrcpy_terminated (zeros (Z.to_nat N)) src k) as (tr & Hrun & _);
    [done..| |].
  { unfold zeros. rewrite length_replicate. lia. }
  exists tr. rewrite Hrun. unfold zeros. by rewrite drop_replicate.
Qed.

(** C3: a source with no terminator among its first [N-1] characters:
    exactly the [N-1] characters at indices [0 .. N-2] are copied, in
    order, then a null byte is written at index 0; the destination starts
    with the terminator. *)
Theorem dstrcpy_overlong_source_cleared (dst src : list byte) :
  let n := Z.to_nat (N - 1) in
  0 < N →
  length dst = Z.to_nat N →
  (Z.to_nat N ≤ length src)%nat →
  (∀ m c, (m < n)%nat → src !! m = Some c → c ≠ x00) →
  ∃ d tr, dstrcpy N dst src = Some (d, tr)
        ∧ writes tr = zip (seq 0 n) (take n src) ++ [(0%nat, x00)]
        ∧ length (take n src) = n
        ∧ d = <[0%nat:=x00]> (take n src ++ drop n dst)
        ∧ d !! 0%nat = Some x00.
Proof.
  intros n HN Hdst Hsrc Hnz.
  destruct (dstrcpy_truncated dst src) as (tr & Hrun & _ & Hwr); [done..|lia|lia|lia|].
  fold n in Hrun, Hwr. eexists _, tr. split_and!; [done..| |done|].
  - rewrite length_take. lia.
  - apply list_lookup_insert_eq. rewrite length_app, length_take, length_drop. lia.
Qed.

(** C9: on a destination of [N] bytes and a source that is a C string or
    has at least [N] bytes, [dstrcpy] returns; the destination keeps its
    size; every index read in the source is below [N], inside the source,
    and not past the first terminator; every write goes to the
    destination, inside its bounds. *)
Theorem dstrcpy_accesses_bounded (dst src : list byte) :
  0 < N →
  length dst = Z.to_nat N →
  is_Some (first_nul src) ∨ (Z.to_nat N ≤ length src)%nat →
  ∃ d tr, dstrcpy N dst src = Some (d, tr)
        ∧ length d = length dst
        ∧ (∀ i, i ∈ reads tr →
             Z.of_nat i < N ∧ (i < length src)%nat
             ∧ ∀ k, first_nul src = Some k → (i ≤ k)%nat)
        ∧ (∀ i c, (i, c) ∈ writes tr → (i < length dst)%nat).
Proof.
  intros HN Hdst Hsrc.
  assert (∀ n, (n < length src)%nat → (n ≤ length dst)%nat →
               length (take n src ++ drop n dst) = length dst) as Hlen.
  { intros n ??. rewrite length_app, length_take, length_drop. lia. }
  destruct (first_nul src) as [k|] eqn:Ek.
  - pose proof Ek as [Hk Hfirst]%first_nul_Some.
    pose proof (lookup_lt_Some _ _ _ Hk) as Hklen.
    destruct (decide (Z.of_nat k < N - 1)) as [Hlt|Hge].
    + destruct (dstrcpy_terminated dst src k) as (tr & Hrun & Hrd & Hwr); [done..|lia|].
      eexists _, tr. split_and!; [done|apply Hlen; lia| |].
      * intros i Hi. apply Hrd in Hi.
        split_and!; [lia..|]. intros ? [= <-]. lia.
      * intros i c Hi. rewrite Hwr in Hi. apply writes_below in Hi. lia.
    + destruct (dstrcpy_truncated dst src) as (tr & Hrun & Hrd & Hwr); [done| |lia..|].
      { intros m c Hm. apply Hfirst. lia. }
      eexists _, tr. split_and!; [done| | |].
      * rewrite length_insert. apply Hlen; lia.
      * intros i Hi. apply Hrd in Hi.
        split_and!; [lia..|]. intros ? [= <-]. lia.
      * intros i c Hi. rewrite Hwr in Hi.
        apply elem_of_app in Hi as [Hi%writes_below|Hi%list_elem_of_singleton]; [lia|].
        injection Hi as -> _. lia.
  - destruct Hsrc as [[? [=]]|Hsrc].
    destruct (dstrcpy_truncated dst src) as (tr & Hrun & Hrd & Hwr); [done| |lia..|].
    { intros m c _. by apply first_nul_None. }
    eexists _, tr. split_and!; [done| | |].
    + rewrite length_insert. apply Hlen; lia.
    + intros i Hi. apply Hrd in Hi.
      split_and!; [lia..|]. intros ? [=].
    + intros i c Hi. rewrite Hwr in Hi.
      apply elem_of_app in Hi as [Hi%writes_below|Hi%list_elem_of_singleton]; [lia|].
      injection Hi as -> _. lia.
Qed.

End Copier.

(** The copier with a capacity of eight bytes, source "hello": the five
    letters are copied and the byte at index 5 is still the ['x'] the
    destination held. *)
Lemma dstrcpy_terminator_not_copied_hello :
  first_nul hello = Some 5%nat ∧ Z.of_nat 5 < 8 - 1 ∧ length dirty8 = Z.to_nat 8 ∧
  ∃ d tr, dstrcpy 8 dirty8 hello = Some (d, tr)
        ∧ d = take 5 hello ++ drop 5 dirty8
        ∧ d !! 5%nat = dirty8 !! 5%nat
        ∧ ∀ c, (5%nat, c) ∉ writes tr.
Proof.
  split_and!; [reflexivity|lia|reflexivity|].
  apply (dstrcpy_terminator_not_copied 8 dirty8 hello 5); [reflexivity|lia|reflexivity].
Defined.

Example dstrcpy_hello :
  fst <$> dstrcpy 8 dirty8 hello = Some [x68; x65; x6c; x6c; x6f; x78; x78; x78].
Proof. reflexivity. Qed.

(** The copier with a capacity of eight bytes, source "helloworld". *)
Lemma dstrcpy_overlong_source_cleared_helloworld :
  0 < 8 ∧ length dirty8 = Z.to_nat 8 ∧ (Z.to_nat 8 ≤ length helloworld)%nat ∧
  (∀ m c, (m < 7)%nat → helloworld !! m = Some c → c ≠ x00) ∧
  ∃ d tr, dstrcpy 8 dirty8 helloworld = Some (d, tr)
        ∧ writes tr = zip (seq 0 7) (take 7 helloworld) ++ [(0%nat, x00)]
        ∧ length (take 7 helloworld) = 7%nat
        ∧ d = <[0%nat:=x00]> (take 7 helloworld ++ drop 7 dirty8)
        ∧ d !! 0%nat = Some x00.
Proof.
  assert (∀ m c, (m < 7)%nat → helloworld !! m = Some c → c ≠ x00) as Hnz.
  { intros m c Hm. do 7 (destruct m as [|m]; [by intros [= <-]|]). lia. }
  split_and!; [lia|reflexivity|simpl; lia|exact Hnz|].
  apply (dstrcpy_overlong_source_cleared 8 dirty8 helloworld);
    [lia|reflexivity|simpl; lia|exact Hnz].
Defined.

Example dstrcpy_helloworld :
  fst <$> dstrcpy 8 dirty8 helloworld = Some [x00; x65; x6c; x6c; x6f; x77; x6f; x78].
Proof. reflexivity. Qed.

Lemma dstrcpy_accesses_bounded_hello :
  0 < 8 ∧ length dirty8 = Z.to_nat 8 ∧
  (is_Some (first_nul hello) ∨ (Z.to_nat 8 ≤ length hello)%nat) ∧
  ∃ d tr, dstrcpy 8 dirty8 hello = Some (d, tr)
        ∧ length d = length dirty8
        ∧ (∀ i, i ∈ reads tr →
             Z.of_nat i < 8 ∧ (i < length hello)%nat
             ∧ ∀ k, first_nul hello = Some k → (i ≤ k)%nat)
        ∧ (∀ i c, (i, c) ∈ writes tr → (i < length dirty8)%nat).
Proof.
  split_and!; [lia|reflexivity|left; by eexists|].
  apply (dstrcpy_accesses_bounded 8 dirty8 hello); [lia|reflexivity|left; by eexists].
Defined.

Section Recorder.

Context (N C : Z).

(** *** One call, under any interference *)

Lemma dsa_add_new_assertion_failure_args (b : DeviceAssertionsData) (t : thread) :
  t_args (dsa_add_new_assertion_failure N C b t).2 = t_args t.
Proof.
  unfold dsa_add_new_assertion_failure.
  repeat (case_match; simpl; try done).
Qed.

Lemma log_of_snoc (nid : Z) (l : list stmt) (s : stmt) :
  log_of nid l ++ [MStmt s nid] = log_of nid (l ++ [s]).
Proof. unfold log_of. by rewrite fmap_app. Qed.

Lemma coherent_entry (a : arguments) : coherent C (entry a).
Proof. by split. Qed.

Lemma coherent_step (b : DeviceAssertionsData) (t : thread) :
  coherent C t → coherent C (dsa_add_new_assertion_failure N C b t).2.
Proof.
  unfold coherent, dsa_add_new_assertion_failure. destruct (t_pc t) as [| | | |s| | |s] eqn:Epc.
  - intros [Hnid Hlog]. destruct (assertions_data (t_args t)) eqn:Ea; simpl; auto.
  - intros [Hnid Hlog]. simpl. rewrite Hlog. eauto.
  - intros (nid & Hnid & Hlog). rewrite Hnid.
    destruct (Z.gtb_spec nid C); simpl; [by eauto|].
    exists nid. by split_and!; [..|lia].
  - intros (nid & Hnid & Hlog & Hgt).
    destruct (assertion_failure_written b <? assertion_count b); simpl; [|by eauto 10].
    rewrite Epc. eauto.
  - intros (nid & Hnid & Hlog & Hle). rewrite Hnid.
    destruct (write_slot N b nid s (t_args t)); simpl.
    + destruct s; simpl; exists nid; by rewrite Hlog.
    + exists nid. by rewrite Hlog, log_of_snoc.
  - intros (nid & Hnid & Hlog & Hle). simpl. right; right. exists nid. by rewrite Hlog.
  - simpl. by rewrite Epc.
  - simpl. by rewrite Epc.
Qed.

Lemma call_reaches_args (a : arguments) (t : thread) :
  call_reaches N C a t → t_args t = a.
Proof. induction 1; [done|]. by rewrite dsa_add_new_assertion_failure_args. Qed.

Lemma call_reaches_coherent (a : arguments) (t : thread) :
  call_reaches N C a t → coherent C t.
Proof. induction 1; [apply coherent_entry|by apply coherent_step]. Qed.

(** *** Counting threads *)

Lemma tally_app (P : thread → bool) (l k : list thread) :
  tally P (l ++ k) = tally P l + tally P k.
Proof. induction l as [|t l IH]; simpl; [done|]. rewrite IH. lia. Qed.

Lemma tally_bounds (P : thread → bool) (l : list thread) :
  0 ≤ tally P l ≤ Z.of_nat (length l).
Proof. induction l as [|t l IH]; simpl; [lia|]. destruct (P t); lia. Qed.

Lemma tally_insert (P : thread → bool) (l : list thread) (i : nat) (t t' : thread) :
  l !! i = Some t →
  tally P (<[i:=t']> l)
  = tally P l - (if P t then 1 else 0) + (if P t' then 1 else 0).
Proof.
  intros Hi. pose proof (lookup_lt_Some _ _ _ Hi) as Hlen.
  rewrite insert_take_drop by done.
  rewrite <- (take_drop_middle l i t Hi) at 3.
  rewrite !tally_app. simpl. lia.
Qed.

Lemma tally_mono (P Q : thread → bool) (l : list thread) :
  (∀ t, t ∈ l → P t = true → Q t = true) → tally P l ≤ tally Q l.
Proof.
  induction l as [|t l IH]; intros HPQ; simpl; [lia|].
  assert (tally P l ≤ tally Q l) by (apply IH; intros; apply HPQ; [by right|done]).
  specialize (HPQ t (list_elem_of_here _ _)). destruct (P t), (Q t); lia.
Qed.

Lemma tally_lt (P Q : thread → bool) (l : list thread) (i : nat) (t : thread) :
  (∀ t, t ∈ l → P t = true → Q t = true) →
  l !! i = Some t → P t = false → Q t = true →
  tally P l < tally Q l.
Proof.
  intros HPQ Hi HP HQ. rewrite <- (take_drop_middle l i t Hi) in HPQ |- *.
  rewrite !tally_app. simpl. rewrite HP, HQ.
  pose proof (tally_mono P Q (take i l)) as H1.
  pose proof (tally_mono P Q (drop (S i) l)) as H2.
  assert (tally P (take i l) ≤ tally Q (take i l)).
  { apply H1. intros t' Ht'. apply HPQ. apply elem_of_app. by left. }
  assert (tally P (drop (S i) l) ≤ tally Q (drop (S i) l)).
  { apply H2. intros t' Ht'. apply HPQ. apply elem_of_app. right. by right. }
  lia.
Qed.

Lemma tally_all (P : thread → bool) (l : list thread) :
  (∀ t, t ∈ l → P t = true) → tally P l = Z.of_nat (length l).
Proof.
  induction l as [|t l IH]; intros HP; simpl length; simpl tally; [done|].
  rewrite (HP t) by left. rewrite IH; [lia|]. intros. apply HP. by right.
Qed.

Lemma tally_entry (P : thread → bool) (calls : list arguments) :
  (∀ a, P (entry a) = false) → tally P (entry <$> calls) = 0.
Proof.
  intros HP. induction calls as [|a l IH]; [done|].
  rewrite fmap_cons. simpl. by rewrite HP, IH.
Qed.

(** *** The invariant of the launch *)

Lemma invariant_launch (calls : list arguments) : invariant N C (launch N C calls).
Proof.
  split; simpl.
  - by rewrite length_replicate.
  - intros i t [a [-> _]]%list_lookup_fmap_Some. apply coherent_entry.
  - by rewrite tally_entry.
  - by rewrite tally_entry.
  - by intros i t nid [a [-> _]]%list_lookup_fmap_Some.
  - by intros i j t t' nid [a [-> _]]%list_lookup_fmap_Some.
  - by intros i t nid [a [-> _]]%list_lookup_fmap_Some.
  - intros n Hn. apply lookup_replicate. split; [done|lia].
Qed.

(** Thread [i] goes from [t] to [t'] and the buffer to [b']: what the
    step has to satisfy for the invariant to carry over. *)
Lemma invariant_update (s : state) (i : nat) (t t' : thread) (b' : DeviceAssertionsData) :
  invariant N C s →
  pool s !! i = Some t →
  length (assertions b') = length (assertions (buf s)) →
  coherent C t' →
  assertion_count b' - assertion_count (buf s)
  = (if reserved t' then 1 else 0) - (if reserved t then 1 else 0) →
  assertion_failure_written b' - assertion_failure_written (buf s)
  = (if published t' then 1 else 0) - (if published t then 1 else 0) →
  t_nid t' = t_nid t ∨ (t_nid t = None ∧ t_nid t' = Some (assertion_count (buf s))) →
  (∀ n, 0 ≤ n → t_nid t' ≠ Some n →
        assertions b' !! Z.to_nat n = assertions (buf s) !! Z.to_nat n) →
  (∀ nid, t_nid t' = Some nid → faulted t' = false → nid < C →
     assertions b' !! Z.to_nat nid
     = fill N (logged_stmts (t_log t')) (t_args t') (zero_record N)) →
  invariant N C {| buf := b'; pool := <[i:=t']> (pool s) |}.
Proof.
  intros Hinv Hi Hlen Hcoh Hcount Hwritten Hnid Hframe Hown.
  destruct Hinv as [Islots Icoh Icount Iwritten Ibelow Idistinct Islot Ifree].
  assert (assertion_count (buf s) ≤ assertion_count b') as Hmono.
  { unfold reserved in Hcount. destruct Hnid as [Hsame|[Hnone Hnew]].
    - rewrite Hsame in Hcount. destruct (t_nid t); lia.
    - rewrite Hnone, Hnew in Hcount. lia. }
  assert (∀ nid, t_nid t' = Some nid → 0 ≤ nid < assertion_count b') as Hbelow'.
  { intros nid Hnid'. destruct Hnid as [Hsame|[Hnone Hnew]].
    - rewrite Hsame in Hnid'. specialize (Ibelow i t nid Hi Hnid'). lia.
    - unfold reserved in Hcount. rewrite Hnone, Hnew in Hcount.
      rewrite Hnew in Hnid'. injection Hnid' as <-.
      pose proof (tally_bounds reserved (pool s)). lia. }
  assert (∀ j t'' nid, j ≠ i → pool s !! j = Some t'' → t_nid t'' = Some nid →
                       t_nid t' ≠ Some nid) as Hother.
  { intros j t'' nid Hj Hj' Hnid'' Hnid'. destruct Hnid as [Hsame|[Hnone Hnew]].
    - rewrite Hsame in Hnid'. by pose proof (Idistinct i j t t'' nid Hi Hj' Hnid' Hnid'').
    - rewrite Hnew in Hnid'. injection Hnid' as <-.
      specialize (Ibelow j t'' _ Hj' Hnid''). lia. }
  split; simpl.
  - lia.
  - intros j t'' [(<- & <- & _)|[_ Hj]]%list_lookup_insert_Some; eauto.
  - rewrite (tally_insert _ _ _ _ _ Hi). lia.
  - rewrite (tally_insert _ _ _ _ _ Hi). lia.
  - intros j t'' nid [(<- & <- & _)|[Hne Hj]]%list_lookup_insert_Some Hnid''.
    + by apply Hbelow'.
    + specialize (Ibelow j t'' nid Hj Hnid''). lia.
  - intros j k t1 t2 nid
      [(<- & <- & _)|[Hj Hj']]%list_lookup_insert_Some
      [(<- & <- & _)|[Hk Hk']]%list_lookup_insert_Some H1 H2; try done.
    + by destruct (Hother k t2 nid).
    + by destruct (Hother j t1 nid).
    + eauto.
  - intros j t'' nid [(<- & <- & _)|[Hne Hj]]%list_lookup_insert_Some Hnid'' Hfault Hlt.
    + by apply Hown.
    + rewrite Hframe; [by apply (Islot j t'' nid)| |by eapply Hother].
      by apply (Ibelow j t'' nid).
  - intros n Hn. pose proof (tally_bounds reserved (pool s)).
    rewrite Hframe; [apply Ifree; lia|lia|].
    intros Hnid'. specialize (Hbelow' n Hnid'). lia.
Qed.

Lemma write_slot_Some (b b' : DeviceAssertionsData) (nid : Z) (s : stmt) (a : arguments) :
  write_slot N b nid s a = Some b' →
  (Z.of_nat (length (assertions b)) ≤ nid ∧ b' = b)
  ∨ ∃ self self',
      0 ≤ nid ∧ assertions b !! Z.to_nat nid = Some self
      ∧ exec_stmt N s a self = Some self'
      ∧ b' = {| assertion_count := assertion_count b;
                assertion_failure_written := assertion_failure_written b;
                assertions := <[Z.to_nat nid := self']> (assertions b) |}.
Proof.
  unfold write_slot, behind. intros H.
  destruct (Z.leb_spec (Z.of_nat (length (assertions b))) nid).
  { left. by injection H as <-. }
  right. destruct (decide (0 ≤ nid)); [|done].
  destruct (assertions b !! Z.to_nat nid) as [self|] eqn:Hself; [|done]. simpl in H.
  destruct (exec_stmt N s a self) as [self'|] eqn:Hexec; [|done]. simpl in H.
  injection H as <-. by exists self, self'.
Qed.

(** An assignment behind the array leaves the buffer as it is. *)
Lemma write_slot_behind (b : DeviceAssertionsData) (nid : Z) (s : stmt) (a : arguments) :
  Z.of_nat (length (assertions b)) ≤ nid → write_slot N b nid s a = Some b.
Proof.
  intros Hge. unfold write_slot, behind.
  by replace (_ <=? _) with true by (symmetry; by apply Z.leb_le).
Qed.

Lemma fill_snoc (l : list stmt) (s : stmt) (a : arguments) (r : DeviceAssertionData) :
  fill N (l ++ [s]) a r = fill N l a r ≫= exec_stmt N s a.
Proof. unfold fill. by rewrite foldl_snoc. Qed.

Lemma logged_stmts_snoc (l : list mutation) (m : mutation) :
  logged_stmts (l ++ [m])
  = logged_stmts l ++ match m with MStmt s _ => [s] | _ => [] end.
Proof. unfold logged_stmts. rewrite omap_app. by destruct m. Qed.

Lemma published_Returned (t : thread) :
  coherent C t → published t = true → t_pc t = Returned ∧ reserved t = true.
Proof.
  unfold coherent, published, reserved.
  destruct (t_pc t) as [| | | |s| | |s].
  1-2: by intros [_ ->].
  - by intros (nid & _ & ->).
  - by intros (nid & _ & -> & _).
  - intros (nid & _ & -> & _). by destruct s.
  - by intros (nid & _ & -> & _).
  - intros [(_ & _ & ->)|[(nid & _ & -> & _)|(nid & -> & _)]]; done.
  - intros (nid & _ & -> & _). by destruct s.
Qed.

Lemma step_length (s : state) (i : nat) :
  length (pool (step N C s i)) = length (pool s).
Proof.
  unfold step. destruct (pool s !! i) as [t|]; [|done].
  destruct (dsa_add_new_assertion_failure N C (buf s) t). simpl. apply length_insert.
Qed.

Lemma run_length (sched : list nat) (s : state) :
  length (pool (run N C sched s)) = length (pool s).
Proof.
  revert s. induction sched as [|i sched IH]; intros s; [done|].
  unfold run in *. simpl. by rewrite IH, step_length.
Qed.

Lemma wrap32_small (x : Z) : 0 ≤ x < 2 ^ 32 → wrap32 x = x.
Proof. intros. unfold wrap32. by apply Z.mod_small. Qed.

(** A statement that moves thread [i] from [t] to another program point
    and touches neither the buffer nor the locals of the thread. *)
Local Ltac local_statement s i t Hslot Epc :=
  apply (invariant_update s i t); simpl; auto;
  try (unfold reserved, published; simpl; lia);
  intros ? ? _ ?; apply Hslot; try done; unfold faulted; by rewrite Epc.

(** With fewer than [2^32] threads the counters never wrap, and every
    statement of every thread keeps the invariant. *)
Lemma invariant_step (s : state) (i : nat) :
  Z.of_nat (length (pool s)) < 2 ^ 32 →
  invariant N C s → invariant N C (step N C s i).
Proof.
  intros Hsize Hinv. unfold step.
  destruct (pool s !! i) as [t|] eqn:Hi; [|done].
  pose proof (inv_coherent _ _ _ Hinv i t Hi) as Hcoh.
  pose proof (coherent_step (buf s) t Hcoh) as Hcoh'.
  pose proof (inv_slot _ _ _ Hinv i t) as Hslot.
  pose proof (published_Returned t Hcoh) as Hpub.
  destruct (dsa_add_new_assertion_failure N C (buf s) t) as [b' t'] eqn:Hstep. simpl in Hcoh'.
  unfold dsa_add_new_assertion_failure in Hstep. unfold coherent in Hcoh.
  destruct (t_pc t) as [| | | |st| | |st] eqn:Epc.
  - (* line 39 *)
    destruct (assertions_data (t_args t)); injection Hstep as <- <-.
    all: local_statement s i t Hslot Epc.
  - (* line 44 *)
    destruct Hcoh as [Hnone Hlog]. injection Hstep as <- <-.
    assert (tally reserved (pool s) + 1 ≤ Z.of_nat (length (pool s))) as Hroom.
    { pose proof (tally_bounds reserved
                    (<[i:={| t_args := t_args t; t_nid := Some 0; t_pc := L46;
                             t_log := [] |}]> (pool s))) as Hb.
      assert (reserved t = false) as Hres by (unfold reserved; by rewrite Hnone).
      rewrite (tally_insert _ _ _ _ _ Hi), length_insert, Hres in Hb.
      simpl in Hb. lia. }
    pose proof (tally_bounds reserved (pool s)) as Hb.
    pose proof (inv_count _ _ _ Hinv) as Hcount.
    apply (invariant_update s i t); simpl; auto.
    + unfold reserved. simpl. rewrite Hnone. rewrite wrap32_small; lia.
    + unfold published. simpl. rewrite Hlog. simpl. lia.
    + intros nid [= <-] _ Hlt. rewrite Hlog. simpl.
      apply (inv_free _ _ _ Hinv). lia.
  - (* line 46 *)
    destruct Hcoh as (nid & Hnid & Hlog). rewrite Hnid in Hstep.
    destruct (nid >? C); injection Hstep as <- <-.
    all: local_statement s i t Hslot Epc.
  - (* line 58 *)
    destruct (_ <? _); injection Hstep as <- <-.
    all: local_statement s i t Hslot Epc.
  - (* lines 66-76 *)
    destruct Hcoh as (nid & Hnid & Hlog & Hle). rewrite Hnid in Hstep.
    assert (published t = false) as Hpubt.
    { destruct (published t); [|done]. by destruct Hpub. }
    destruct (write_slot N (buf s) nid st (t_args t)) as [b''|] eqn:Hwrite;
      injection Hstep as <- <-.
    + apply write_slot_Some in Hwrite
        as [[Hbehind ->]|(self & self' & Hpos & Hself & Hexec & ->)].
      { (* behind the array *)
        rewrite (inv_slots _ _ _ Hinv) in Hbehind.
        apply (invariant_update s i t); simpl; auto.
        * unfold reserved. simpl. lia.
        * rewrite Hpubt. unfold published. simpl. rewrite last_snoc. lia.
        * intros n Hn _ Hlt. rewrite Hnid in Hn. injection Hn as <-. lia. }
      pose proof (lookup_lt_Some _ _ _ Hself) as Hlt.
      rewrite (inv_slots _ _ _ Hinv) in Hlt.
      assert (assertions (buf s) !! Z.to_nat nid
              = fill N (logged_stmts (t_log t)) (t_args t) (zero_record N)) as Hold.
      { apply Hslot; [done..| |lia]. unfold faulted; by rewrite Epc. }
      apply (invariant_update s i t); simpl; auto.
      * apply length_insert.
      * unfold reserved. simpl. lia.
      * rewrite Hpubt. unfold published. simpl. rewrite last_snoc. lia.
      * intros n Hn Hne. apply list_lookup_insert_ne. intros Heq.
        apply Hne. rewrite Hnid. f_equal. lia.
      * intros n Hn _ _. rewrite Hnid in Hn. injection Hn as <-.
        rewrite list_lookup_insert_eq by (rewrite (inv_slots _ _ _ Hinv); lia).
        rewrite logged_stmts_snoc, fill_snoc, <- Hold.
        by rewrite Hself.
    + apply (invariant_update s i t); simpl; auto.
      * unfold reserved. simpl. lia.
      * rewrite Hpubt. unfold published. simpl. rewrite last_snoc. lia.
      * by intros.
  - (* line 80 *)
    destruct Hcoh as (nid & Hnid & Hlog & Hle). injection Hstep as <- <-.
    assert (published t = false) as Hpubt.
    { destruct (published t); [|done]. by destruct Hpub. }
    pose proof (tally_bounds published
                  (<[i:=goto Returned (logged MWritten t)]> (pool s))) as Hb.
    assert (published (goto Returned (logged MWritten t)) = true) as Hpubt'.
    { unfold published. simpl. by rewrite last_snoc. }
    rewrite (tally_insert _ _ _ _ _ Hi), length_insert, Hpubt, Hpubt' in Hb.
    pose proof (inv_written _ _ _ Hinv) as Hwritten.
    apply (invariant_update s i t); simpl; auto.
    + unfold reserved. simpl. lia.
    + rewrite Hpubt, Hpubt'. rewrite wrap32_small; lia.
    + intros n Hn _ Hlt. rewrite logged_stmts_snoc, app_nil_r.
      apply Hslot; [done..| |done]. unfold faulted; by rewrite Epc.
  - (* returned *)
    injection Hstep as <- <-.
    rewrite list_insert_id by done. by destruct s.
  - (* faulted *)
    injection Hstep as <- <-.
    rewrite list_insert_id by done. by destruct s.
Qed.

Lemma invariant_run (sched : list nat) (s : state) :
  Z.of_nat (length (pool s)) < 2 ^ 32 →
  invariant N C s → invariant N C (run N C sched s).
Proof.
  revert s. induction sched as [|i sched IH]; intros s Hsize Hinv; [done|].
  unfold run in *. simpl. apply IH.
  - by rewrite step_length.
  - by apply invariant_step.
Qed.

(** *** One call *)

Lemma null_call_states (a : arguments) (t : thread) :
  assertions_data a = nullptr →
  call_reaches N C a t → t = entry a ∨ t = goto Returned (entry a).
Proof.
  intros Hnull. induction 1 as [|b t Ht [->| ->]]; [by left|right..].
  - unfold dsa_add_new_assertion_failure. simpl. by rewrite Hnull.
  - done.
Qed.

(** C7: a call whose buffer pointer is null returns in its first
    statement with the buffer as it was; in no state it passes through
    has it reserved an index or changed anything, it is never in the
    busy-wait, and no statement of it changes the buffer. *)
Theorem null_buffer_call_is_noop (a : arguments) :
  assertions_data a = nullptr →
  (∀ b, dsa_add_new_assertion_failure N C b (entry a) = (b, goto Returned (entry a)))
  ∧ ∀ t, call_reaches N C a t →
         t_pc t ≠ L58 ∧ t_nid t = None ∧ t_log t = []
         ∧ ∀ b, (dsa_add_new_assertion_failure N C b t).1 = b.
Proof.
  intros Hnull. split.
  - intros b. unfold dsa_add_new_assertion_failure. simpl. by rewrite Hnull.
  - intros t [->| ->]%null_call_states; [|done..].
    split_and!; [done..|]. intros b. unfold dsa_add_new_assertion_failure. simpl. by rewrite Hnull.
Qed.

(** Line 44 changes the counter of reservations and nothing else. *)
Lemma reservation_effect (b : DeviceAssertionsData) (t : thread) :
  t_pc t = L44 →
  (dsa_add_new_assertion_failure N C b t).1
  = {| assertion_count := wrap32 (assertion_count b + 1);
       assertion_failure_written := assertion_failure_written b;
       assertions := assertions b |}
  ∧ t_nid (dsa_add_new_assertion_failure N C b t).2 = Some (assertion_count b).
Proof. intros Hpc. unfold dsa_add_new_assertion_failure. by rewrite Hpc. Qed.

(** C10: a call whose reserved index is above the capacity (the test of
    line 46 sends it to the busy-wait) has made one mutation, the
    increment of [assertion_count] of line 44, which leaves
    [assertion_failure_written] and the slots as they were; it is at the
    test, in the busy-wait or returned, and none of its further
    statements changes the buffer. *)
Theorem overflow_call_mutates_only_count (a : arguments) (t : thread) (nid : Z) :
  call_reaches N C a t →
  t_nid t = Some nid →
  C < nid →
  t_log t = [MCount]
  ∧ (t_pc t = L46 ∨ t_pc t = L58 ∨ t_pc t = Returned)
  ∧ (∀ b, (dsa_add_new_assertion_failure N C b t).1 = b)
  ∧ (∀ b t0, t_pc t0 = L44 →
       let b' := (dsa_add_new_assertion_failure N C b t0).1 in
       assertion_failure_written b' = assertion_failure_written b
       ∧ assertions b' = assertions b
       ∧ assertion_count b' = wrap32 (assertion_count b + 1)).
Proof.
  intros Hcoh%call_reaches_coherent Hnid Hgt.
  assert (∀ b t0, t_pc t0 = L44 →
       let b' := (dsa_add_new_assertion_failure N C b t0).1 in
       assertion_failure_written b' = assertion_failure_written b
       ∧ assertions b' = assertions b
       ∧ assertion_count b' = wrap32 (assertion_count b + 1)) as H44.
  { intros b t0 H0 b'. unfold b'.
    destruct (reservation_effect b t0 H0) as [-> _]. done. }
  unfold coherent in Hcoh. unfold dsa_add_new_assertion_failure.
  destruct (t_pc t) as [| | | |s| | |s] eqn:Epc.
  1-2: destruct Hcoh as [Hnone _]; congruence.
  - destruct Hcoh as (n & Hn & Hlog). split_and!; [done|by left| |done].
    intros b. rewrite Hn. by destruct (n >? C).
  - destruct Hcoh as (n & Hn & Hlog & _). split_and!; [done|by right; left| |done].
    intros b. by destruct (_ <? _).
  - destruct Hcoh as (n & Hn & _ & Hle). rewrite Hn in Hnid. injection Hnid as ->. lia.
  - destruct Hcoh as (n & Hn & _ & Hle). rewrite Hn in Hnid. injection Hnid as ->. lia.
  - destruct Hcoh as [(_ & Hnone & _)|[(n & Hn & Hlog & _)|(n & Hn & _ & Hle)]].
    + congruence.
    + split_and!; [done|by right; right|done|done].
    + rewrite Hn in Hnid. injection Hnid as ->. lia.
  - destruct Hcoh as (n & Hn & _ & Hle). rewrite Hn in Hnid. injection Hnid as ->. lia.
Qed.

(** *** A launch *)

Lemma run_snoc (sched : list nat) (i : nat) (s : state) :
  run N C (sched ++ [i]) s = step N C (run N C sched s) i.
Proof. unfold run. by rewrite foldl_snoc. Qed.

Lemma run_app (sched more : list nat) (s : state) :
  run N C (sched ++ more) s = run N C more (run N C sched s).
Proof. unfold run. by rewrite foldl_app. Qed.

Lemma step_lookup (s : state) (i j : nat) (t : thread) :
  pool (step N C s i) !! j = Some t →
  (i ≠ j ∧ pool s !! j = Some t)
  ∨ (i = j ∧ ∃ t0, pool s !! j = Some t0
             ∧ t = (dsa_add_new_assertion_failure N C (buf s) t0).2).
Proof.
  unfold step. destruct (pool s !! i) as [t0|] eqn:Hi.
  - destruct (dsa_add_new_assertion_failure N C (buf s) t0) as [b' t'] eqn:Hstep. simpl.
    intros [(<- & <- & _)|[Hne Hj]]%list_lookup_insert_Some; [right|by left].
    split; [done|]. exists t0. by rewrite Hstep.
  - intros Hj. left. split; [|done]. intros ->. congruence.
Qed.

(** Every thread of a launch is a call in progress. *)
Lemma run_reaches (calls : list arguments) (sched : list nat) (i : nat) (t : thread) :
  pool (run N C sched (launch N C calls)) !! i = Some t →
  ∃ a, calls !! i = Some a ∧ call_reaches N C a t.
Proof.
  revert t. induction sched as [|j sched IH] using rev_ind; intros t.
  - simpl. intros [a [-> Ha]]%list_lookup_fmap_Some. exists a. split; [done|constructor].
  - rewrite run_snoc.
    intros [[_ Hi]|[_ (t0 & Hi & ->)]]%step_lookup; [by apply IH|].
    destruct (IH t0 Hi) as (a & Ha & Hreach). exists a. split; [done|].
    by constructor.
Qed.

Lemma launch_size (calls : list arguments) (sched : list nat) :
  length (pool (run N C sched (launch N C calls))) = length calls.
Proof. rewrite run_length. simpl. apply length_fmap. Qed.

Lemma invariant_reachable (calls : list arguments) (sched : list nat) :
  Z.of_nat (length calls) < 2 ^ 32 →
  invariant N C (run N C sched (launch N C calls)).
Proof.
  intros Hsize. apply invariant_run; [|apply invariant_launch].
  simpl. by rewrite length_fmap.
Qed.

(** A thread in the busy-wait finds the condition of line 58 true. *)
Lemma busy_wait_condition (s : state) (i : nat) (t : thread) :
  invariant N C s → pool s !! i = Some t → t_pc t = L58 →
  assertion_failure_written (buf s) < assertion_count (buf s).
Proof.
  intros Hinv Hi Hpc.
  rewrite (inv_written _ _ _ Hinv), (inv_count _ _ _ Hinv).
  pose proof (inv_coherent _ _ _ Hinv i t Hi) as Hcoh.
  apply (tally_lt _ _ _ i t); [|done| |].
  - intros t' [j Hj]%list_elem_of_lookup Hpub.
    by apply published_Returned; [apply (inv_coherent _ _ _ Hinv j)|].
  - destruct (published t) eqn:Hpub; [|done].
    apply published_Returned in Hpub as [Hret _]; [congruence|done].
  - unfold coherent in Hcoh. rewrite Hpc in Hcoh.
    destruct Hcoh as (nid & Hnid & _). unfold reserved. by rewrite Hnid.
Qed.

Lemma busy_wait_step (s : state) (i j : nat) (t : thread) :
  invariant N C s → pool s !! i = Some t → t_pc t = L58 →
  pool (step N C s j) !! i = Some t.
Proof.
  intros Hinv Hi Hpc. pose proof (busy_wait_condition s i t Hinv Hi Hpc) as Hcond.
  unfold step. destruct (decide (j = i)) as [->|Hne].
  - rewrite Hi. unfold dsa_add_new_assertion_failure. rewrite Hpc.
    replace (_ <? _) with true by (symmetry; by apply Z.ltb_lt).
    simpl. apply list_lookup_insert_eq. by eapply lookup_lt_Some.
  - destruct (pool s !! j) as [t0|]; [|done].
    destruct (dsa_add_new_assertion_failure N C (buf s) t0). simpl.
    by rewrite list_lookup_insert_ne.
Qed.

(** C5: in a launch of fewer than [2^32] threads on a zeroed buffer, a
    thread that has entered the busy-wait of lines 58-60 is still in it
    after any further statements of any threads, and the condition of
    the loop still holds: the loop does not terminate. *)
Theorem busy_wait_never_exits (calls : list arguments) (sched more : list nat)
    (i : nat) (t : thread) :
  Z.of_nat (length calls) < 2 ^ 32 →
  pool (run N C sched (launch N C calls)) !! i = Some t →
  t_pc t = L58 →
  pool (run N C (sched ++ more) (launch N C calls)) !! i = Some t
  ∧ assertion_failure_written (buf (run N C (sched ++ more) (launch N C calls)))
    < assertion_count (buf (run N C (sched ++ more) (launch N C calls))).
Proof.
  intros Hsize Hi Hpc.
  assert (pool (run N C (sched ++ more) (launch N C calls)) !! i = Some t) as Hi'.
  { induction more as [|j more IH] using rev_ind.
    - by rewrite app_nil_r.
    - rewrite app_assoc, run_snoc.
      apply busy_wait_step; [by apply invariant_reachable|done..]. }
  split; [done|].
  by apply (busy_wait_condition _ i t); [apply invariant_reachable|..].
Qed.

(** The eleven assignments together: the three strings are copied into
    what the slot held, the other fields are those of the call. *)
Lemma fill_all_stmts (a : arguments) (r0 r : DeviceAssertionData) :
  fill N all_stmts a r0 = Some r →
  ∃ msg file func,
    dstrcpy N (assertion_msg r0) (assertion_msg0 a) = Some msg
    ∧ dstrcpy N (filename r0) (filename0 a) = Some file
    ∧ dstrcpy N (function_name r0) (function_name0 a) = Some func
    ∧ r = record_of a msg.1 file.1 func.1.
Proof.
  destruct r0 as [m f u l c [[b0 b1] b2] [[t0 t1] t2]].
  unfold fill. simpl.
  destruct (dstrcpy N m (assertion_msg0 a)) as [msg|]; simpl; [|done].
  destruct (dstrcpy N f (filename0 a)) as [file|]; simpl; [|done].
  destruct (dstrcpy N u (function_name0 a)) as [func|]; simpl; [|done].
  intros [= <-]. by exists msg, file, func.
Qed.

Lemma every_field_assigned (f : field) : f ∈ field_of <$> all_stmts.
Proof. destruct f; simpl; repeat (try (by left); right). Qed.

(** The local [nid] of a call is set by line 44 and never changes
    afterwards. *)
Lemma dsa_add_new_assertion_failure_nid (b : DeviceAssertionsData) (t : thread) :
  t_nid (dsa_add_new_assertion_failure N C b t).2 = t_nid t
  ∨ (t_pc t = L44
     ∧ t_nid (dsa_add_new_assertion_failure N C b t).2 = Some (assertion_count b)).
Proof.
  unfold dsa_add_new_assertion_failure.
  destruct (t_pc t) as [| | | |s| | |s]; simpl; auto.
  - destruct (assertions_data (t_args t)); auto.
  - destruct (t_nid t) as [nid|] eqn:Hnid; auto. destruct (nid >? C); auto.
  - destruct (_ <? _); auto.
  - destruct (t_nid t) as [nid|] eqn:Hnid; auto.
    destruct (write_slot N b nid s (t_args t)); simpl; auto.
Qed.

(** The statements by which a call with a reserved index returns. *)
Lemma returns_from (b : DeviceAssertionsData) (t : thread) :
  coherent C t →
  t_pc (dsa_add_new_assertion_failure N C b t).2 = Returned →
  is_Some (t_nid t) →
  (t_pc t = Returned ∧ (dsa_add_new_assertion_failure N C b t).2 = t)
  ∨ (t_pc t = L80
     ∧ (dsa_add_new_assertion_failure N C b t).2 = goto Returned (logged MWritten t))
  ∨ (t_pc t = L58 ∧ ¬ assertion_failure_written b < assertion_count b).
Proof.
  unfold coherent, dsa_add_new_assertion_failure. intros Hcoh Hret [nid Hnid].
  destruct (t_pc t) as [| | | |s| | |s] eqn:Epc.
  - destruct Hcoh. congruence.
  - done.
  - rewrite Hnid in Hret. by destruct (nid >? C).
  - destruct (Z.ltb_spec (assertion_failure_written b) (assertion_count b)).
    + simpl in Hret. congruence.
    + right; right. split; [done|lia].
  - rewrite Hnid in Hret.
    destruct (write_slot N b nid s (t_args t)); simpl in Hret; [|done].
    by destruct s.
  - right; left. done.
  - by left.
  - simpl in Hret. congruence.
Qed.

(** In a launch, a call that has reserved an index returns through
    line 80 only. *)
Lemma returned_published (calls : list arguments) (sched : list nat) (i : nat) (t : thread) :
  Z.of_nat (length calls) < 2 ^ 32 →
  pool (run N C sched (launch N C calls)) !! i = Some t →
  t_pc t = Returned → is_Some (t_nid t) → published t = true.
Proof.
  intros Hsize. revert t. induction sched as [|j sched IH] using rev_ind; intros t.
  - simpl. by intros [a [-> _]]%list_lookup_fmap_Some.
  - rewrite run_snoc. pose proof (invariant_reachable calls sched Hsize) as Hinv.
    set (s := run N C sched (launch N C calls)) in *.
    intros [[_ Hi]|[-> (t0 & Hi & ->)]]%step_lookup Hret Hnid; [by apply IH|].
    pose proof (inv_coherent _ _ _ Hinv _ _ Hi) as Hcoh.
    assert (is_Some (t_nid t0)) as Hnid0.
    { destruct (dsa_add_new_assertion_failure_nid (buf s) t0) as [<-|[Hpc _]];
        [done|].
      unfold dsa_add_new_assertion_failure in Hret. by rewrite Hpc in Hret. }
    destruct (returns_from (buf s) t0 Hcoh Hret Hnid0)
      as [[Hpc ->]|[[Hpc ->]|[Hpc Hexit]]].
    + by apply IH.
    + unfold published. simpl. by rewrite last_snoc.
    + destruct Hexit. by apply (busy_wait_condition s i t0).
Qed.

Lemma tally_ext (P Q : thread → bool) (l : list thread) :
  (∀ t, t ∈ l → P t = Q t) → tally P l = tally Q l.
Proof.
  induction l as [|t l IH]; intros HPQ; simpl; [done|].
  rewrite (HPQ t) by left. rewrite IH; [done|]. intros. apply HPQ. by right.
Qed.

(** In a launch, the calls that have returned with an index are those
    that have executed line 80. *)
Lemma returned_with_index_published (calls : list arguments) (sched : list nat)
    (i : nat) (t : thread) :
  Z.of_nat (length calls) < 2 ^ 32 →
  pool (run N C sched (launch N C calls)) !! i = Some t →
  returned_with_index t = published t.
Proof.
  intros Hsize Hi.
  pose proof (invariant_reachable calls sched Hsize) as Hinv.
  pose proof (inv_coherent _ _ _ Hinv i t Hi) as Hcoh.
  destruct (published t) eqn:Hpub.
  - destruct (published_Returned t Hcoh Hpub) as [Hpc Hres].
    unfold returned_with_index, reserved in *. rewrite Hpc.
    by destruct (t_nid t).
  - unfold returned_with_index.
    destruct (t_pc t) eqn:Hpc; try done.
    destruct (t_nid t) as [nid|] eqn:Hnid; [|done].
    rewrite <- Hpub. symmetry.
    apply (returned_published calls sched i t); [done..|]. by rewrite Hnid.
Qed.

(** In a launch, a call that stands at line 80 or has returned with an
    index has passed the test of line 46 and executed the eleven
    assignments, in order, and then line 80 if it has returned. *)
Lemma past_assignments (calls : list arguments) (sched : list nat)
    (i : nat) (t : thread) (nid : Z) :
  Z.of_nat (length calls) < 2 ^ 32 →
  pool (run N C sched (launch N C calls)) !! i = Some t →
  t_nid t = Some nid →
  t_pc t = L80 ∨ t_pc t = Returned →
  0 ≤ nid ≤ C
  ∧ faulted t = false
  ∧ published t = returned_with_index t
  ∧ t_log t = log_of nid all_stmts ++ (if returned_with_index t then [MWritten] else []).
Proof.
  intros Hsize Hi Hnid Hpc.
  pose proof (invariant_reachable calls sched Hsize) as Hinv.
  pose proof (inv_coherent _ _ _ Hinv i t Hi) as Hcoh.
  pose proof (inv_nid_below _ _ _ Hinv i t nid Hi Hnid) as Hpos.
  pose proof (returned_with_index_published calls sched i t Hsize Hi) as Hpub.
  unfold coherent in Hcoh. unfold returned_with_index, faulted in *.
  rewrite Hnid in *. destruct Hpc as [Hpc|Hpc]; rewrite Hpc in *.
  - destruct Hcoh as (n & [= <-] & Hlog & Hle).
    split_and!; [lia|lia|done|done|by rewrite app_nil_r].
  - destruct Hcoh as [(_ & [=] & _)|[(n & _ & Hlog & _)|(n & [= <-] & Hlog & Hle)]].
    + unfold published in Hpub. by rewrite Hlog in Hpub.
    + by split_and!; [lia|lia|..].
Qed.

(** In a launch, the slot of a call that stands at line 80 or has
    returned, with an index below the capacity, holds the complete record
    of the call. *)
Lemma slot_complete (calls : list arguments) (sched : list nat)
    (i : nat) (t : thread) (nid : Z) :
  Z.of_nat (length calls) < 2 ^ 32 →
  let s := run N C sched (launch N C calls) in
  let z := zeros (Z.to_nat N) in
  pool s !! i = Some t →
  t_nid t = Some nid →
  t_pc t = L80 ∨ t_pc t = Returned →
  nid < C →
  ∃ msg file func,
    dstrcpy N z (assertion_msg0 (t_args t)) = Some msg
    ∧ dstrcpy N z (filename0 (t_args t)) = Some file
    ∧ dstrcpy N z (function_name0 (t_args t)) = Some func
    ∧ assertions (buf s) !! Z.to_nat nid
      = Some (record_of (t_args t) msg.1 file.1 func.1).
Proof.
  intros Hsize s z Hi Hnid Hpc Hlt.
  pose proof (invariant_reachable calls sched Hsize) as Hinv. fold s in Hinv.
  destruct (past_assignments calls sched i t nid Hsize Hi Hnid Hpc)
    as (Hrange & Hfault & _ & Hlog).
  pose proof (inv_slot _ _ _ Hinv i t nid Hi Hnid Hfault Hlt) as Hslot.
  assert (logged_stmts (t_log t) = all_stmts) as Hstmts.
  { rewrite Hlog. by destruct (returned_with_index t). }
  rewrite Hstmts in Hslot.
  destruct (lookup_lt_is_Some_2 (assertions (buf s)) (Z.to_nat nid)) as [r Hr].
  { rewrite (inv_slots _ _ _ Hinv). lia. }
  pose proof Hr as Hfill. rewrite Hslot in Hfill.
  apply fill_all_stmts in Hfill as (msg & file & func & Hmsg & Hfile & Hfunc & ->).
  by exists msg, file, func.
Qed.

(** C6: in a launch of fewer than [2^32] threads on a zeroed buffer,
    take a call that holds an index and stands at line 80, about to
    increment [assertion_failure_written], or has returned.  It has
    executed line 44 and then the eleven assignments of lines 66-76,
    which cover the seven fields, in program order, and line 80 after
    them, once, if and only if it has returned.  No other call has its
    index.  When the index is below the capacity, the slot holds the
    complete record of the call, before the increment as after it: the
    three strings as [dstrcpy] leaves them in a zeroed field, and the
    line, caller and coordinates of the call.  The index may equal the
    capacity (line 46): the assignments of such a call are behind the
    array.  [assertion_failure_written] is the number of calls that have
    returned with an index. *)
Theorem published_records_complete (calls : list arguments) (sched : list nat)
    (i : nat) (t : thread) (nid : Z) :
  Z.of_nat (length calls) < 2 ^ 32 →
  let s := run N C sched (launch N C calls) in
  let z := zeros (Z.to_nat N) in
  pool s !! i = Some t →
  t_nid t = Some nid →
  t_pc t = L80 ∨ t_pc t = Returned →
  assertion_failure_written (buf s) = tally returned_with_index (pool s)
  ∧ (∀ f, f ∈ field_of <$> all_stmts)
  ∧ 0 ≤ nid ≤ C
  ∧ t_log t = log_of nid all_stmts ++ (if returned_with_index t then [MWritten] else [])
  ∧ (returned_with_index t = true ↔ t_pc t = Returned)
  ∧ (∀ j t', pool s !! j = Some t' → t_nid t' = Some nid → j = i)
  ∧ (nid < C →
     ∃ a msg file func,
       calls !! i = Some a
       ∧ dstrcpy N z (assertion_msg0 a) = Some msg
       ∧ dstrcpy N z (filename0 a) = Some file
       ∧ dstrcpy N z (function_name0 a) = Some func
       ∧ assertions (buf s) !! Z.to_nat nid = Some (record_of a msg.1 file.1 func.1)).
Proof.
  intros Hsize s z Hi Hnid Hpc.
  pose proof (invariant_reachable calls sched Hsize) as Hinv. fold s in Hinv.
  destruct (past_assignments calls sched i t nid Hsize Hi Hnid Hpc)
    as (Hrange & _ & _ & Hlog).
  split_and!; [| |lia|lia|done| | |].
  - rewrite (inv_written _ _ _ Hinv). apply tally_ext.
    intros t' [j Hj]%list_elem_of_lookup. symmetry.
    by apply (returned_with_index_published calls sched j).
  - apply every_field_assigned.
  - unfold returned_with_index. rewrite Hnid.
    destruct Hpc as [-> | ->]; by split.
  - intros j t' Hj Hnid'. by apply (inv_nid_distinct _ _ _ Hinv j i t' t nid).
  - intros Hlt.
    destruct (run_reaches _ _ _ _ Hi) as (a & Ha & Hargs%call_reaches_args).
    destruct (slot_complete calls sched i t nid Hsize Hi Hnid Hpc Hlt)
      as (msg & file & func & H).
    rewrite Hargs in H. by exists a, msg, file, func.
Qed.

(** The counter of reservations, wrap-around included: every statement
    other than line 44 leaves it alone, line 44 adds one modulo [2^32]. *)
Lemma dsa_add_new_assertion_failure_count (b : DeviceAssertionsData) (t : thread) :
  coherent C t →
  let '(b', t') := dsa_add_new_assertion_failure N C b t in
  (assertion_count b' = assertion_count b ∧ reserved t' = reserved t)
  ∨ (assertion_count b' = wrap32 (assertion_count b + 1)
     ∧ reserved t = false ∧ reserved t' = true).
Proof.
  intros Hcoh. unfold coherent in Hcoh. unfold dsa_add_new_assertion_failure.
  destruct (t_pc t) as [| | | |s| | |s].
  - destruct (assertions_data (t_args t)); by left.
  - right. destruct Hcoh as [Hnone _]. unfold reserved. simpl. by rewrite Hnone.
  - destruct (t_nid t) as [nid|]; [|by left]. destruct (nid >? C); by left.
  - destruct (_ <? _); by left.
  - destruct (t_nid t) as [nid|] eqn:Hnid; [|by left].
    destruct (write_slot N b nid s (t_args t)) as [b'|] eqn:Hw; [|by left].
    apply write_slot_Some in Hw as [[_ ->]|(? & ? & _ & _ & _ & ->)]; by left.
  - by left.
  - by left.
  - by left.
Qed.

Lemma wrap32_succ (x : Z) : wrap32 (wrap32 x + 1) = wrap32 (x + 1).
Proof. unfold wrap32. by rewrite Zplus_mod_idemp_l. Qed.

Lemma count_wraps (calls : list arguments) (sched : list nat) :
  let s := run N C sched (launch N C calls) in
  assertion_count (buf s) = wrap32 (tally reserved (pool s)).
Proof.
  induction sched as [|j sched IH] using rev_ind; simpl.
  - by rewrite tally_entry.
  - rewrite run_snoc. simpl in IH. unfold step.
    destruct (pool _ !! j) as [t|] eqn:Hj; [|done].
    destruct (run_reaches _ _ _ _ Hj) as (a & _ & Hcoh%call_reaches_coherent).
    pose proof (dsa_add_new_assertion_failure_count
                  (buf (run N C sched (launch N C calls))) t Hcoh) as Hstep.
    destruct (dsa_add_new_assertion_failure N C _ t) as [b' t']. simpl.
    rewrite (tally_insert _ _ _ _ _ Hj).
    destruct Hstep as [[-> ->]|(-> & -> & ->)].
    + rewrite IH. f_equal. destruct (reserved t); lia.
    + rewrite IH, wrap32_succ. f_equal. lia.
Qed.

(** C8: in a launch on a zeroed buffer, [assertion_count] is the number
    of threads that have executed line 44, modulo [2^32], wherever each
    of them went from there.  With fewer than [2^32] threads it is that
    number, and once all [N] threads have executed line 44 it is [N]. *)
Theorem assertion_count_counts_reservations (calls : list arguments) (sched : list nat) :
  let s := run N C sched (launch N C calls) in
  assertion_count (buf s) = wrap32 (tally reserved (pool s))
  ∧ (Z.of_nat (length calls) < 2 ^ 32 →
     assertion_count (buf s) = tally reserved (pool s)
     ∧ (Forall (λ t, reserved t = true) (pool s) →
        assertion_count (buf s) = Z.of_nat (length calls))).
Proof.
  intros s. split; [apply count_wraps|]. intros Hsize.
  pose proof (invariant_reachable calls sched Hsize) as Hinv.
  fold s in Hinv. split; [apply (inv_count _ _ _ Hinv)|].
  intros Hall. rewrite (inv_count _ _ _ Hinv), tally_all.
  - unfold s. by rewrite launch_size.
  - by apply Forall_forall.
Qed.

(** An assignment of a call whose index is at or past the end of the
    array: the buffer is as it was and the call is at the next line. *)
Lemma step_behind (b : DeviceAssertionsData) (pl : list thread) (k : nat)
    (a : arguments) (nid : Z) (st : stmt) (l : list mutation) :
  (k < length pl)%nat →
  Z.of_nat (length (assertions b)) ≤ nid →
  step N C {| buf := b;
              pool := <[k:={| t_args := a; t_nid := Some nid; t_pc := LW st;
                              t_log := l |}]> pl |} k
  = {| buf := b;
       pool := <[k:={| t_args := a; t_nid := Some nid; t_pc := next_pc st;
                       t_log := l ++ [MStmt st nid] |}]> pl |}.
Proof.
  intros Hk Hge. unfold step. cbn [pool buf].
  rewrite list_lookup_insert_eq by done.
  unfold dsa_add_new_assertion_failure. cbn [t_pc t_nid t_args].
  rewrite write_slot_behind by done.
  by rewrite list_insert_insert_eq.
Qed.

(** The test of line 46 lets the index equal to the capacity through: a
    call at line 46 whose index is not above the capacity and is at or
    past the end of the array goes on to line 66 and executes the
    assignment on [assertions[nid]], behind the array; eleven statements
    later it has executed line 80 and returned, and the slots are as they
    were. *)
Lemma test_passes_capacity (s : state) (k : nat) (a : arguments) (nid : Z) :
  pool s !! k = Some (at_test nid a) →
  nid ≤ C →
  Z.of_nat (length (assertions (buf s))) ≤ nid →
  0 ≤ assertion_failure_written (buf s) →
  assertion_failure_written (buf s) + 1 < 2 ^ 32 →
  run N C [k; k] s
  = {| buf := buf s;
       pool := <[k:={| t_args := a; t_nid := Some nid; t_pc := LW S67;
                       t_log := [MCount; MStmt S66 nid] |}]> (pool s) |}
  ∧ run N C (replicate 13 k) s
    = {| buf := {| assertion_count := assertion_count (buf s);
                   assertion_failure_written := assertion_failure_written (buf s) + 1;
                   assertions := assertions (buf s) |};
         pool := <[k:={| t_args := a; t_nid := Some nid; t_pc := Returned;
                         t_log := log_of nid all_stmts ++ [MWritten] |}]> (pool s) |}.
Proof.
  intros Hk Hle Hge Hpos Hroom. pose proof (lookup_lt_Some _ _ _ Hk) as Hlen.
  assert (step N C s k
          = {| buf := buf s;
               pool := <[k:={| t_args := a; t_nid := Some nid; t_pc := LW S66;
                               t_log := [MCount] |}]> (pool s) |}) as Htest.
  { unfold step. rewrite Hk. unfold dsa_add_new_assertion_failure. cbn [at_test t_pc t_nid].
    by replace (nid >? C) with false by (symmetry; rewrite Z.gtb_ltb; apply Z.ltb_ge; lia). }
  split.
  - change (run N C [k; k] s) with (step N C (step N C s k) k).
    rewrite Htest. by rewrite step_behind.
  - unfold run. cbn [replicate foldl]. rewrite Htest.
    do 11 (rewrite step_behind by done; cbn [next_pc app]).
    unfold step. cbn [pool buf]. rewrite list_lookup_insert_eq by done.
    unfold dsa_add_new_assertion_failure. cbn [t_pc t_nid t_args goto logged t_log app].
    rewrite list_insert_insert_eq, wrap32_small by lia. done.
Qed.

(** Lines 39 and 44 of a call with a buffer. *)
Lemma step_reserve (s : state) (k : nat) (a : arguments) :
  pool s !! k = Some (entry a) →
  assertions_data a = launch_buffer →
  0 ≤ assertion_count (buf s) → assertion_count (buf s) + 1 < 2 ^ 32 →
  step N C (step N C s k) k
  = {| buf := {| assertion_count := assertion_count (buf s) + 1;
                 assertion_failure_written := assertion_failure_written (buf s);
                 assertions := assertions (buf s) |};
       pool := <[k:=at_test (assertion_count (buf s)) a]> (pool s) |}.
Proof.
  intros Hk Ha Hpos Hroom. pose proof (lookup_lt_Some _ _ _ Hk) as Hlen.
  unfold step at 2. rewrite Hk.
  unfold dsa_add_new_assertion_failure at 1. simpl. rewrite Ha.
  unfold step. simpl. rewrite list_lookup_insert_eq by done.
  unfold dsa_add_new_assertion_failure. simpl.
  rewrite list_insert_insert_eq, wrap32_small by lia. done.
Qed.

Lemma one_by_one_S (n k : nat) :
  one_by_one (S n) k = one_by_one n k ++ replicate k n.
Proof.
  unfold one_by_one. rewrite seq_S, bind_app. simpl. by rewrite app_nil_r.
Qed.

(** The first [k] calls of a launch execute lines 39 and 44 one after
    the other: call [j] holds index [j]. *)
Lemma reserve_in_order (calls : list arguments) (k : nat) :
  (k ≤ length calls)%nat →
  Z.of_nat k < 2 ^ 32 →
  Forall (λ a, assertions_data a = launch_buffer) calls →
  let s := run N C (one_by_one k 2) (launch N C calls) in
  buf s = {| assertion_count := Z.of_nat k; assertion_failure_written := 0;
             assertions := assertions (zero_buffer N C) |}
  ∧ ∀ j a, calls !! j = Some a →
           pool s !! j = Some (if decide (j < k)%nat then at_test (Z.of_nat j) a
                               else entry a).
Proof.
  intros Hk Hsize Hbuf. induction k as [|k IH]; intros s; unfold s; clear s.
  - simpl. split; [done|]. intros j a Hj. by rewrite list_lookup_fmap, Hj.
  - destruct IH as [IHbuf IHpool]; [lia..|].
    destruct (lookup_lt_is_Some_2 calls k) as [a Ha]; [lia|].
    rewrite one_by_one_S, run_app.
    change (run N C (replicate 2 k) ?s0) with (step N C (step N C s0 k) k).
    rewrite (step_reserve _ k a).
    + rewrite IHbuf. simpl. split; [f_equal; lia|].
      intros j a' Hj. destruct (decide (j = k)) as [->|Hne].
      * rewrite list_lookup_insert_eq
          by (rewrite launch_size; by eapply lookup_lt_Some).
        rewrite decide_True by lia. congruence.
      * rewrite list_lookup_insert_ne, (IHpool j a' Hj) by done.
        destruct (decide (j < k)%nat), (decide (j < S k)%nat); done || lia.
    + rewrite (IHpool k a Ha). by rewrite decide_False by lia.
    + rewrite Forall_forall in Hbuf. apply Hbuf. apply list_elem_of_lookup. eauto.
    + rewrite IHbuf. simpl. lia.
    + rewrite IHbuf. simpl. lia.
Qed.

(** C1: on a buffer of [C] slots, more than [C] calls with a buffer:
    when the first [C + 1] of them have executed line 44 in order, call
    [C] holds index [C]; it passes the test of line 46 and executes
    line 66 on [assertions[C]], which is past the last slot.  It goes on
    through lines 67-76 and line 80 and returns: [assertion_failure_written]
    is then 1, and every slot of the array is still as the host zeroed
    it. *)
Theorem capacity_test_passes_capacity (calls : list arguments) :
  0 ≤ C → C + 1 < 2 ^ 32 →
  (Z.to_nat C < length calls)%nat →
  Forall (λ a, assertions_data a = launch_buffer) calls →
  let k := Z.to_nat C in
  let s := run N C (one_by_one (S k) 2 ++ [k; k]) (launch N C calls) in
  let s' := run N C (one_by_one (S k) 2 ++ replicate 13 k) (launch N C calls) in
  length (assertions (buf s)) = k
  ∧ assertions (buf s) !! k = None
  ∧ ∃ a, calls !! k = Some a
       ∧ pool s !! k
         = Some {| t_args := a; t_nid := Some C; t_pc := LW S67;
                   t_log := [MCount; MStmt S66 C] |}
       ∧ pool s' !! k
         = Some {| t_args := a; t_nid := Some C; t_pc := Returned;
                   t_log := log_of C all_stmts ++ [MWritten] |}
       ∧ buf s' = {| assertion_count := C + 1; assertion_failure_written := 1;
                     assertions := assertions (zero_buffer N C) |}.
Proof.
  intros HC Hsize Hlen Hbuf k s s'.
  destruct (reserve_in_order calls (S k)) as [Hb Hpool]; [lia..|done|].
  destruct (lookup_lt_is_Some_2 calls k) as [a Ha]; [lia|].
  specialize (Hpool k a Ha). rewrite decide_True in Hpool by lia.
  replace (Z.of_nat k) with C in Hpool by lia.
  unfold s, s'. rewrite !run_app.
  set (s0 := run N C (one_by_one (S k) 2) (launch N C calls)) in *.
  pose proof (lookup_lt_Some _ _ _ Hpool) as Hk.
  destruct (test_passes_capacity s0 k a C) as [-> ->]; [done|lia|..].
  { rewrite Hb. simpl. rewrite length_replicate. lia. }
  { rewrite Hb. simpl. lia. }
  { rewrite Hb. simpl. lia. }
  cbn [pool buf]. rewrite Hb. cbn [assertions zero_buffer assertion_count
                                     assertion_failure_written].
  rewrite length_replicate.
  split_and!; [done|apply lookup_ge_None; by rewrite length_replicate|].
  exists a. rewrite !list_lookup_insert_eq by done.
  split_and!; [done..|]. f_equal. lia.
Qed.

End Recorder.

(** ** The scenario of six failing threads on four slots *)

Lemma null_buffer_call_is_noop_disabled :
  assertions_data disabled_call = nullptr ∧
  (∀ b, dsa_add_new_assertion_failure 8 4 b (entry disabled_call)
        = (b, goto Returned (entry disabled_call)))
  ∧ ∀ t, call_reaches 8 4 disabled_call t →
         t_pc t ≠ L58 ∧ t_nid t = None ∧ t_log t = []
         ∧ ∀ b, (dsa_add_new_assertion_failure 8 4 b t).1 = b.
Proof.
  split; [reflexivity|].
  apply (null_buffer_call_is_noop 8 4 disabled_call). reflexivity.
Defined.

Example sixth_in_wait_state :
  t_pc sixth_in_wait = L58 ∧ t_nid sixth_in_wait = Some 5.
Proof. by split. Qed.

Lemma overflow_call_mutates_only_count_sixth :
  call_reaches 8 4 (failing_call x35 15 5) sixth_in_wait ∧
  t_nid sixth_in_wait = Some 5 ∧ 4 < 5 ∧
  t_log sixth_in_wait = [MCount]
  ∧ (t_pc sixth_in_wait = L46 ∨ t_pc sixth_in_wait = L58
     ∨ t_pc sixth_in_wait = Returned)
  ∧ (∀ b, (dsa_add_new_assertion_failure 8 4 b sixth_in_wait).1 = b)
  ∧ (∀ b t0, t_pc t0 = L44 →
       let b' := (dsa_add_new_assertion_failure 8 4 b t0).1 in
       assertion_failure_written b' = assertion_failure_written b
       ∧ assertions b' = assertions b
       ∧ assertion_count b' = wrap32 (assertion_count b + 1)).
Proof.
  assert (call_reaches 8 4 (failing_call x35 15 5) sixth_in_wait) as Hreach.
  { unfold sixth_in_wait. do 3 apply reaches_step. apply reaches_entry. }
  split; [exact Hreach|]. split; [reflexivity|]. split; [lia|].
  apply (overflow_call_mutates_only_count 8 4 (failing_call x35 15 5) sixth_in_wait 5);
    [exact Hreach|reflexivity|lia].
Defined.

Lemma capacity_test_passes_capacity_six :
  0 ≤ 4 ∧ 4 + 1 < 2 ^ 32 ∧ (Z.to_nat 4 < length six_calls)%nat ∧
  Forall (λ a, assertions_data a = launch_buffer) six_calls ∧
  let s := run 8 4 (one_by_one 5 2 ++ [4; 4]%nat) (launch 8 4 six_calls) in
  let s' := run 8 4 (one_by_one 5 2 ++ replicate 13 4%nat) (launch 8 4 six_calls) in
  length (assertions (buf s)) = 4%nat
  ∧ assertions (buf s) !! 4%nat = None
  ∧ ∃ a, six_calls !! 4%nat = Some a
       ∧ pool s !! 4%nat
         = Some {| t_args := a; t_nid := Some 4; t_pc := LW S67;
                   t_log := [MCount; MStmt S66 4] |}
       ∧ pool s' !! 4%nat
         = Some {| t_args := a; t_nid := Some 4; t_pc := Returned;
                   t_log := log_of 4 all_stmts ++ [MWritten] |}
       ∧ buf s' = {| assertion_count := 4 + 1; assertion_failure_written := 1;
                     assertions := assertions (zero_buffer 8 4) |}.
Proof.
  assert (Forall (λ a, assertions_data a = launch_buffer) six_calls) as Hbuf.
  { repeat constructor. }
  split; [lia|]. split; [lia|]. split; [simpl; lia|]. split; [exact Hbuf|].
  apply (capacity_test_passes_capacity 8 4 six_calls);
    [lia|lia|simpl; lia|exact Hbuf].
Defined.

(** C4: six calls, one after the other, on a zeroed buffer of four
    slots.  The first four fill the slots and publish.  The fifth is not
    dropped: it passes the test of line 46 with index 4, executes
    lines 66-76 on [assertions[4]], behind the array, and line 80, and
    returns: [assertion_failure_written] ends as 5.  The sixth is in the
    busy-wait. *)
Theorem six_calls_on_four_slots :
  let s := run 8 4 (one_by_one 6 15) (launch 8 4 six_calls) in
  length (assertions (buf s)) = 4%nat
  ∧ assertion_count (buf s) = 6
  ∧ assertion_failure_written (buf s) = 5
  ∧ t_pc <$> pool s = [Returned; Returned; Returned; Returned; Returned; L58]
  ∧ t_nid <$> pool s = [Some 0; Some 1; Some 2; Some 3; Some 4; Some 5]
  ∧ t_log <$> pool s !! 4%nat = Some (log_of 4 all_stmts ++ [MWritten]).
Proof. repeat split; vm_compute; reflexivity. Qed.

(** The first slot after the six calls: the record of the first call,
    its strings followed by the zeros of the field. *)
Example six_calls_first_slot :
  assertions (buf (run 8 4 (one_by_one 6 15) (launch 8 4 six_calls))) !! 0%nat
  = Some (record_of (failing_call x30 10 0)
            ([x30] ++ zeros 7) ([x61; x2e; x63; x75] ++ zeros 4) ([x6b] ++ zeros 7)).
Proof. vm_compute. reflexivity. Qed.

Lemma busy_wait_never_exits_sixth :
  Z.of_nat (length six_calls) < 2 ^ 32 ∧
  pool (run 8 4 (one_by_one 6 15) (launch 8 4 six_calls)) !! 5%nat = Some sixth_in_wait ∧
  t_pc sixth_in_wait = L58 ∧
  pool (run 8 4 (one_by_one 6 15 ++ replicate 1000 5%nat) (launch 8 4 six_calls)) !! 5%nat
  = Some sixth_in_wait
  ∧ assertion_failure_written
      (buf (run 8 4 (one_by_one 6 15 ++ replicate 1000 5%nat) (launch 8 4 six_calls)))
    < assertion_count
        (buf (run 8 4 (one_by_one 6 15 ++ replicate 1000 5%nat) (launch 8 4 six_calls))).
Proof.
  do 3 (split; [reflexivity|]).
  apply (busy_wait_never_exits 8 4 six_calls (one_by_one 6 15) (replicate 1000 5%nat)
           5 sixth_in_wait); reflexivity.
Defined.

Lemma published_records_complete_six :
  Z.of_nat (length six_calls) < 2 ^ 32 ∧
  pool (run 8 4 (one_by_one 6 15) (launch 8 4 six_calls)) !! 0%nat
  = Some first_returned ∧
  t_nid first_returned = Some 0 ∧
  (t_pc first_returned = L80 ∨ t_pc first_returned = Returned) ∧
  let s := run 8 4 (one_by_one 6 15) (launch 8 4 six_calls) in
  let z := zeros (Z.to_nat 8) in
  let t := first_returned in
  assertion_failure_written (buf s) = tally returned_with_index (pool s)
  ∧ (∀ f, f ∈ field_of <$> all_stmts)
  ∧ 0 ≤ 0 ≤ 4
  ∧ t_log t = log_of 0 all_stmts ++ (if returned_with_index t then [MWritten] else [])
  ∧ (returned_with_index t = true ↔ t_pc t = Returned)
  ∧ (∀ j t', pool s !! j = Some t' → t_nid t' = Some 0 → j = 0%nat)
  ∧ (0 < 4 →
     ∃ a msg file func,
       six_calls !! 0%nat = Some a
       ∧ dstrcpy 8 z (assertion_msg0 a) = Some msg
       ∧ dstrcpy 8 z (filename0 a) = Some file
       ∧ dstrcpy 8 z (function_name0 a) = Some func
       ∧ assertions (buf s) !! Z.to_nat 0 = Some (record_of a msg.1 file.1 func.1)).
Proof.
  split; [reflexivity|]. do 2 (split; [reflexivity|]).
  split; [right; reflexivity|].
  apply (published_records_complete 8 4 six_calls (one_by_one 6 15) 0 first_returned 0);
    [reflexivity|reflexivity|reflexivity|right; reflexivity].
Defined.

(** The first call after fourteen statements of its own: it stands at
    line 80, [assertion_failure_written] is still 0, and slot 0 already
    holds its complete record. *)
Example first_call_at_line_80 :
  let s := run 8 4 (replicate 14 0%nat) (launch 8 4 six_calls) in
  t_pc <$> pool s !! 0%nat = Some L80
  ∧ assertion_failure_written (buf s) = 0
  ∧ assertions (buf s) !! 0%nat
    = Some (record_of (failing_call x30 10 0)
              ([x30] ++ zeros 7) ([x61; x2e; x63; x75] ++ zeros 4) ([x6b] ++ zeros 7)).
Proof. repeat split; vm_compute; reflexivity. Qed.

Lemma assertion_count_counts_reservations_six :
  Z.of_nat (length six_calls) < 2 ^ 32
  ∧ Forall (λ t, reserved t = true)
      (pool (run 8 4 (one_by_one 6 15) (launch 8 4 six_calls)))
  ∧ assertion_count (buf (run 8 4 (one_by_one 6 15) (launch 8 4 six_calls)))
    = Z.of_nat (length six_calls).
Proof.
  assert (Forall (λ t, reserved t = true)
            (pool (run 8 4 (one_by_one 6 15) (launch 8 4 six_calls)))) as Hall.
  { vm_compute. repeat constructor. }
  split; [reflexivity|]. split; [exact Hall|].
  apply (assertion_count_counts_reservations 8 4 six_calls (one_by_one 6 15));
    [reflexivity|exact Hall].
Defined.

(** * Further properties of the string copier *)

Section CopierBounds.

Context (N : Z).

(** The loop runs into undefined behaviour when, after [n] iterations
    from [i], it reads past the source or has to store past the
    destination. *)
Lemma dstrcpy_loop_None (n : nat) : ∀ (fuel i : nat) (src dst : list byte),
  (∀ m, i ≤ m < i + n → ∃ c, src !! m = Some c ∧ c ≠ x00)%nat →
  Z.of_nat (i + n) ≤ N - 1 →
  src !! (i + n)%nat = None
  ∨ (∃ c, src !! (i + n)%nat = Some c ∧ c ≠ x00
        ∧ Z.of_nat (i + n) < N - 1 ∧ (length dst ≤ i + n)%nat) →
  dstrcpy_loop N fuel i src dst = None.
Proof.
  induction n as [|n IH]; intros fuel i src dst Hbody Hbound Hstop.
  - rewrite Nat.add_0_r in Hstop.
    destruct Hstop as [Hnone|(c & Hc & Hnz & Hlt & Hdst)].
    + destruct fuel; simpl; by rewrite Hnone.
    + destruct fuel; simpl; rewrite Hc; simpl; rewrite (is_nul_false c Hnz); simpl.
      all: replace (Z.of_nat i <? N - 1) with true by (symmetry; apply Z.ltb_lt; lia).
      all: try done.
      unfold store. by rewrite decide_False by lia.
  - destruct (Hbody i) as (c & Hc & Hnz); [lia|].
    destruct fuel as [|fuel]; simpl; rewrite Hc; simpl;
      rewrite (is_nul_false c Hnz); simpl;
      replace (Z.of_nat i <? N - 1) with true by (symmetry; apply Z.ltb_lt; lia);
      [done|].
    unfold store. destruct (decide (i < length dst)%nat); [|done]. simpl.
    rewrite (IH fuel (S i) src (<[i:=c]> dst)); [done| |lia|].
    + intros m Hm. apply Hbody. lia.
    + replace (S i + n)%nat with (i + S n)%nat by lia.
      rewrite length_insert. done.
Qed.

(** X1: [dstrcpy] has defined behaviour exactly when the source can be
    read up to the index where the loop stops (its first terminator, or
    [N-1] if that comes first) and the destination has room for the bytes
    before that index, and for the byte of line 23 when the loop stops on
    the bound. *)
Theorem dstrcpy_defined_iff (dst src : list byte) :
  0 < N →
  let n := Z.to_nat (N - 1) in
  let j := match first_nul src with Some k => (k `min` n)%nat | None => n end in
  is_Some (dstrcpy N dst src)
  ↔ (j < length src)%nat ∧ (j ≤ length dst)%nat ∧ (j = n → 0 < length dst)%nat.
Proof.
  intros HN n j.
  assert (Z.of_nat n = N - 1) as Hn by (unfold n; lia).
  assert (j ≤ n)%nat as Hjle by (unfold j; destruct (first_nul src); lia).
  split.
  - intros Hsome.
    destruct (decide (j < length src)%nat) as [Hsrc|Hsrc].
    + destruct (decide (j ≤ length dst)%nat) as [Hdst|Hdst].
      * split_and!; [done..|]. intros Hjn.
        destruct (decide (0 < length dst)%nat) as [|Hzero]; [done|exfalso].
        assert (n = 0%nat) as Hn0 by lia.
        destruct dst; [|simpl in Hzero; lia].
        destruct Hsome as [r Hr]. unfold dstrcpy in Hr. fold n in Hr.
        rewrite Hn0 in Hr. simpl in Hr.
        destruct (src !! 0%nat) as [c|]; [|done]. simpl in Hr.
        replace (Z.of_nat 0 <? N - 1) with false in Hr
          by (symmetry; apply Z.ltb_ge; lia).
        rewrite andb_false_r in Hr. simpl in Hr.
        assert (N - 1 = 0) as HN1 by (unfold n in Hn0; lia).
        by rewrite HN1 in Hr.
      * exfalso. destruct Hsome as [r Hr]. unfold dstrcpy in Hr. fold n in Hr.
        rewrite (dstrcpy_loop_None (length dst) n 0 src dst) in Hr; [done| |simpl; lia|].
        -- intros m Hm. destruct (lookup_lt_is_Some_2 src m) as [c Hc]; [lia|].
           exists c. split; [done|]. unfold j in *.
           destruct (first_nul src) as [k|] eqn:Ek.
           ++ apply first_nul_Some in Ek as [_ Hfirst]. apply (Hfirst m); [lia|done].
           ++ by apply (first_nul_None src m).
        -- right. simpl. destruct (lookup_lt_is_Some_2 src (length dst)) as [c Hc]; [lia|].
           exists c. split_and!; [done| |lia|lia]. unfold j in *.
           destruct (first_nul src) as [k|] eqn:Ek.
           ++ apply first_nul_Some in Ek as [_ Hfirst].
              apply (Hfirst (length dst)); [lia|done].
           ++ by apply (first_nul_None src (length dst)).
    + exfalso. destruct Hsome as [r Hr]. unfold dstrcpy in Hr. fold n in Hr.
      assert (first_nul src = None) as Ek.
      { destruct (first_nul src) as [k|] eqn:Ek; [|done].
        apply first_nul_Some in Ek as [Hk%lookup_lt_Some _]. unfold j in Hsrc. lia. }
      unfold j in Hsrc. rewrite Ek in Hsrc.
      rewrite (dstrcpy_loop_None (length src) n 0 src dst) in Hr; [done| |simpl; lia|].
      * intros m Hm. destruct (lookup_lt_is_Some_2 src m) as [c Hc]; [lia|].
        exists c. split; [done|]. by apply (first_nul_None src m).
      * left. simpl. by apply lookup_ge_None.
  - intros (Hsrc & Hdst & Hzero). unfold j in *.
    destruct (first_nul src) as [k|] eqn:Ek.
    + pose proof Ek as [Hk Hfirst]%first_nul_Some.
      destruct (decide (k < n)%nat) as [Hlt|Hge].
      * destruct (dstrcpy_terminated N dst src k) as (tr & -> & _); [done..|lia|lia|].
        by eexists.
      * destruct (dstrcpy_truncated N dst src) as (tr & -> & _);
          [done| |fold n; lia..|by eexists].
        intros m c Hm. apply Hfirst. fold n in Hm. lia.
    + destruct (dstrcpy_truncated N dst src) as (tr & -> & _);
        [done| |fold n; lia..|by eexists].
      intros m c _. by apply first_nul_None.
Qed.

Lemma first_nul_intro (d : list byte) (k : nat) :
  d !! k = Some x00 →
  (∀ m c, (m < k)%nat → d !! m = Some c → c ≠ x00) →
  first_nul d = Some k.
Proof.
  intros Hk Hfirst. unfold first_nul.
  assert (list_find (λ c, c = x00) d = Some (k, x00)) as ->; [|done].
  apply list_find_Some. split_and!; [done..|].
  intros m c Hc Hm. by apply (Hfirst m).
Qed.

(** What a reader finds in a zero-initialised field after [dstrcpy]: the
    source string itself when it is shorter than [N-1] characters, and
    the empty string otherwise. *)
Lemma dstrcpy_zeroed_reads_back (src : list byte) (k : nat) :
  0 < N →
  first_nul src = Some k →
  ∃ d tr, dstrcpy N (zeros (Z.to_nat N)) src = Some (d, tr)
        ∧ length d = Z.to_nat N
        ∧ c_str d = Some (if decide (Z.of_nat k < N - 1) then take k src else []).
Proof.
  intros HN Ek. pose proof Ek as [Hk Hfirst]%first_nul_Some.
  pose proof (lookup_lt_Some _ _ _ Hk) as Hklen.
  destruct (decide (Z.of_nat k < N - 1)) as [Hlt|Hge].
  - destruct (dstrcpy_zeroed N src k Ek Hlt) as [tr Hrun].
    eexists _, tr. split; [done|].
    assert (length (take k src) = k) as Htake by (rewrite length_take; lia).
    split.
    { unfold zeros. rewrite length_app, Htake, length_replicate. lia. }
    unfold c_str.
    rewrite (first_nul_intro _ k); simpl.
    + by rewrite take_app_length' by done.
    + rewrite lookup_app_r, Htake, Nat.sub_diag by lia.
      unfold zeros. apply lookup_replicate. split; [done|lia].
    + intros m c Hm. rewrite lookup_app_l by lia.
      rewrite lookup_take, decide_True by done. by apply Hfirst.
  - destruct (dstrcpy_truncated N (zeros (Z.to_nat N)) src) as (tr & Hrun & _);
      unfold zeros; rewrite ?length_replicate; [done| |lia..|].
    { intros m c Hm. apply Hfirst. lia. }
    eexists _, tr. split; [done|].
    assert (length (take (Z.to_nat (N - 1)) src
                    ++ drop (Z.to_nat (N - 1)) (zeros (Z.to_nat N)))
            = Z.to_nat N) as Hlen.
    { unfold zeros.
      rewrite length_app, length_take, length_drop, length_replicate. lia. }
    split; [by rewrite length_insert|].
    unfold c_str. rewrite (first_nul_intro _ 0); [done| |lia].
    apply list_lookup_insert_eq. lia.
Qed.

(** X2: a source whose terminator is at [k], below [N-1]: the
    destination reads back as the source string exactly when it held a
    zero at index [k] before the call. *)
Theorem dstrcpy_reads_back_iff (dst src : list byte) (k : nat) :
  first_nul src = Some k →
  Z.of_nat k < N - 1 →
  (k < length dst)%nat →
  ∃ d tr, dstrcpy N dst src = Some (d, tr)
        ∧ (c_str d = Some (take k src) ↔ dst !! k = Some x00).
Proof.
  intros [Hk Hfirst]%first_nul_Some Hlt Hdst.
  pose proof (lookup_lt_Some _ _ _ Hk) as Hklen.
  destruct (dstrcpy_terminated N dst src k) as (tr & Hrun & _); [done..|lia|].
  eexists _, tr. split; [done|].
  assert (length (take k src) = k) as Htake by (rewrite length_take; lia).
  assert ((take k src ++ drop k dst) !! k = dst !! k) as Hat.
  { rewrite lookup_app_r, Htake, Nat.sub_diag, lookup_drop by lia.
    by rewrite Nat.add_0_r. }
  split.
  - unfold c_str. destruct (first_nul _) as [k'|] eqn:Ek'; [|done]. simpl.
    intros [= Heq]. apply first_nul_Some in Ek' as [Hk' _].
    pose proof (lookup_lt_Some _ _ _ Hk') as Hk'len.
    assert (k' = k) as ->.
    { apply (f_equal length) in Heq. rewrite length_take in Heq. lia. }
    by rewrite <- Hat.
  - intros Hzero. unfold c_str.
    rewrite (first_nul_intro _ k); simpl.
    + by rewrite take_app_length' by done.
    + by rewrite Hat.
    + intros m c Hm. rewrite lookup_app_l by lia.
      rewrite lookup_take, decide_True by done. by apply Hfirst.
Qed.

(** The loop changes the destination only at the indices it passes, all
    of them below [N-1], and keeps its size. *)
Lemma dstrcpy_loop_frame (fuel : nat) :
  ∀ (i : nat) (src dst : list byte) (j : nat) (d : list byte) (tr : list access),
  dstrcpy_loop N fuel i src dst = Some (j, d, tr) →
  length d = length dst
  ∧ (∀ m, (m < i)%nat ∨ N - 1 ≤ Z.of_nat m → d !! m = dst !! m)
  ∧ (∀ m c, (m, c) ∈ writes tr → (i ≤ m)%nat ∧ Z.of_nat m < N - 1).
Proof.
  induction fuel as [|fuel IH]; intros i src dst j d tr; simpl.
  - destruct (src !! i) as [c|]; simpl; [|done].
    destruct (negb (Byte.eqb c x00) && (Z.of_nat i <? N - 1)); [done|].
    intros [= <- <- <-]. split_and!; [done..|]. intros m c' Hm. by apply elem_of_nil in Hm.
  - destruct (src !! i) as [c|]; simpl; [|done].
    destruct (negb (Byte.eqb c x00) && (Z.of_nat i <? N - 1)) eqn:Htest.
    + apply andb_true_iff in Htest as [_ Hlt%Z.ltb_lt].
      unfold store. destruct (decide (i < length dst)%nat); [|done]. simpl.
      destruct (dstrcpy_loop N fuel (S i) src (<[i:=c]> dst))
        as [[[j' d'] tr']|] eqn:Hloop; [|done]. simpl.
      intros [= <- <- <-].
      destruct (IH _ _ _ _ _ _ Hloop) as (Hlen & Hframe & Hwr).
      rewrite length_insert in Hlen. split_and!; [done| |].
      * intros m Hm. rewrite Hframe by lia. apply list_lookup_insert_ne. lia.
      * intros m c'. simpl. rewrite elem_of_cons.
        intros [[= -> ->]|Hm%Hwr]; lia.
    + intros [= <- <- <-]. split_and!; [done..|].
      intros m c' Hm. by apply elem_of_nil in Hm.
Qed.

(** X3: with [N ≥ 2], [dstrcpy] never writes at or above index [N-1] of
    the destination: the last byte of a field of [N] bytes is the one it
    had, so a field that ends with a terminator still does. *)
Theorem dstrcpy_keeps_last_byte (dst src d : list byte) (tr : list access) :
  2 ≤ N →
  dstrcpy N dst src = Some (d, tr) →
  length d = length dst
  ∧ (∀ m, N - 1 ≤ Z.of_nat m → d !! m = dst !! m)
  ∧ (∀ m c, (m, c) ∈ writes tr → Z.of_nat m < N - 1).
Proof.
  intros HN. unfold dstrcpy.
  destruct (dstrcpy_loop N _ 0 src dst) as [[[j d'] tr']|] eqn:Hloop; [|done]. simpl.
  destruct (dstrcpy_loop_frame _ _ _ _ _ _ _ Hloop) as (Hlen & Hframe & Hwr).
  destruct (Z.of_nat j =? N - 1).
  - unfold store. destruct (decide (0 < length d')%nat); [|done]. simpl.
    intros [= <- <-]. split_and!.
    + by rewrite length_insert.
    + intros m Hm. rewrite list_lookup_insert_ne by lia. apply Hframe. by right.
    + intros m c. unfold writes in *. rewrite omap_app. simpl.
      intros [Hm%Hwr|[= -> ->]%list_elem_of_singleton]%elem_of_app; lia.
  - intros [= <- <-]. split_and!; [done| |].
    + intros m Hm. apply Hframe. by right.
    + intros m c Hm%Hwr. lia.
Qed.

End CopierBounds.

Lemma dstrcpy_defined_iff_hello :
  0 < 8 ∧
  (is_Some (dstrcpy 8 dirty8 hello)
   ↔ (5 < length hello)%nat ∧ (5 ≤ length dirty8)%nat
     ∧ (5%nat = Z.to_nat (8 - 1) → 0 < length dirty8)%nat).
Proof.
  split; [lia|]. apply (dstrcpy_defined_iff 8 dirty8 hello). lia.
Defined.

Lemma dstrcpy_keeps_last_byte_helloworld :
  2 ≤ 8 ∧
  dstrcpy 8 dirty8 helloworld = Some helloworld_copy ∧
  length helloworld_copy.1 = length dirty8
  ∧ (∀ m, 8 - 1 ≤ Z.of_nat m → helloworld_copy.1 !! m = dirty8 !! m)
  ∧ (∀ m c, (m, c) ∈ writes helloworld_copy.2 → Z.of_nat m < 8 - 1).
Proof.
  split; [lia|]. split; [reflexivity|].
  apply (dstrcpy_keeps_last_byte 8 dirty8 helloworld); [lia|reflexivity].
Defined.

(** * Further properties of the recorder *)

Section RecorderFrame.

Context (N C : Z).

(** An assignment changes one field. *)
Lemma exec_stmt_frame (s : stmt) (a : arguments) (r r' : DeviceAssertionData) (f : field) :
  exec_stmt N s a r = Some r' → f ≠ field_of s → get_field f r' = get_field f r.
Proof.
  destruct r as [m fi fu l c [[b0 b1] b2] [[t0 t1] t2]].
  destruct s; simpl.
  1: destruct (dstrcpy N m (assertion_msg0 a)); simpl; [|done].
  2: destruct (dstrcpy N fi (filename0 a)); simpl; [|done].
  3: destruct (dstrcpy N fu (function_name0 a)); simpl; [|done].
  all: intros [= <-] Hf; by destruct f.
Qed.

(** X4: what one statement of a call can change.  The array keeps its
    number of slots; the slots other than [assertions[nid]] keep their
    contents; [assertion_count] changes only in line 44 and
    [assertion_failure_written] only in line 80; the slots change only in
    lines 66-76, and there the assignment changes one field of the slot
    of the call. *)
Theorem statement_frame (b : DeviceAssertionsData) (t : thread) :
  let b' := (dsa_add_new_assertion_failure N C b t).1 in
  length (assertions b') = length (assertions b)
  ∧ (∀ j, t_nid t ≠ Some (Z.of_nat j) → assertions b' !! j = assertions b !! j)
  ∧ (t_pc t ≠ L44 → assertion_count b' = assertion_count b)
  ∧ (t_pc t ≠ L80 → assertion_failure_written b' = assertion_failure_written b)
  ∧ ((∀ s, t_pc t ≠ LW s) → assertions b' = assertions b)
  ∧ (∀ s j r r' f,
       t_pc t = LW s → assertions b !! j = Some r → assertions b' !! j = Some r' →
       f ≠ field_of s → get_field f r' = get_field f r).
Proof.
  unfold dsa_add_new_assertion_failure.
  destruct (t_pc t) as [| | | |s| | |s] eqn:Epc; simpl.
  - destruct (assertions_data (t_args t)); simpl; by split_and!.
  - by split_and!.
  - destruct (t_nid t) as [nid|]; [destruct (nid >? C)|]; simpl; by split_and!.
  - destruct (_ <? _); simpl; by split_and!.
  - destruct (t_nid t) as [nid|] eqn:Hnid.
    2:{ simpl. split_and!; try done. intros ? j r r' f _ Hr Hr'. congruence. }
    destruct (write_slot N b nid s (t_args t)) as [b'|] eqn:Hw; simpl.
    2:{ split_and!; try done. intros ? j r r' f _ Hr Hr'. congruence. }
    apply write_slot_Some in Hw
      as [[_ ->]|(self & self' & Hpos & Hself & Hexec & ->)]; simpl.
    { split_and!; try done. intros ? j r r' f _ Hr Hr'. congruence. }
    split_and!; try done.
    + apply length_insert.
    + intros j Hj. apply list_lookup_insert_ne. intros <-. apply Hj. f_equal. lia.
    + intros Hs. by destruct (Hs s).
    + intros s0 j r r' f [= <-] Hr Hr' Hf.
      destruct (decide (j = Z.to_nat nid)) as [->|Hne].
      * rewrite list_lookup_insert_eq in Hr' by (by eapply lookup_lt_Some).
        injection Hr' as <-. rewrite Hself in Hr. injection Hr as <-.
        by apply (exec_stmt_frame s (t_args t)).
      * rewrite list_lookup_insert_ne in Hr' by done. congruence.
  - by split_and!.
  - by split_and!.
  - by split_and!.
Qed.

End RecorderFrame.

Section RecorderLaunch.

Context (N C : Z).

Lemma published_reserved (s : state) (t : thread) :
  invariant N C s → t ∈ pool s → published t = true → reserved t = true.
Proof.
  intros Hinv [i Hi]%list_elem_of_lookup Hpub.
  by apply (published_Returned C); [apply (inv_coherent _ _ _ Hinv i)|].
Qed.

(** One statement of one thread: neither counter goes down. *)
Lemma step_counters (s : state) (i : nat) :
  Z.of_nat (length (pool s)) < 2 ^ 32 →
  invariant N C s →
  assertion_count (buf s) ≤ assertion_count (buf (step N C s i))
  ∧ assertion_failure_written (buf s)
    ≤ assertion_failure_written (buf (step N C s i)).
Proof.
  intros Hsize Hinv. pose proof (invariant_step N C s i Hsize Hinv) as Hinv'.
  rewrite (inv_count _ _ _ Hinv'), (inv_written _ _ _ Hinv').
  rewrite (inv_count _ _ _ Hinv), (inv_written _ _ _ Hinv).
  unfold step. destruct (pool s !! i) as [t|] eqn:Hi; [|done].
  pose proof (inv_coherent _ _ _ Hinv i t Hi) as Hcoh.
  pose proof (dsa_add_new_assertion_failure_count N C (buf s) t Hcoh) as Hstep.
  pose proof (published_Returned C t Hcoh) as Hpub.
  destruct (dsa_add_new_assertion_failure N C (buf s) t) as [b' t'] eqn:Hrun.
  simpl. rewrite !(tally_insert _ _ _ _ _ Hi). split.
  - destruct Hstep as [[_ ->]|(_ & -> & ->)]; [|lia]. destruct (reserved t); lia.
  - destruct (published t) eqn:Hp; [|destruct (published t'); lia].
    destruct Hpub as [Hret _]; [done|].
    unfold dsa_add_new_assertion_failure in Hrun. rewrite Hret in Hrun.
    injection Hrun as _ <-. rewrite Hp. lia.
Qed.

(** X5: in a launch of fewer than [2^32] threads on a zeroed buffer,
    neither counter ever goes down, and the number of published records
    is at most the number of reservations, which is at most the number
    of threads. *)
Theorem counters_grow (calls : list arguments) (sched more : list nat) :
  Z.of_nat (length calls) < 2 ^ 32 →
  let s := run N C sched (launch N C calls) in
  let s' := run N C (sched ++ more) (launch N C calls) in
  assertion_count (buf s) ≤ assertion_count (buf s')
  ∧ assertion_failure_written (buf s) ≤ assertion_failure_written (buf s')
  ∧ 0 ≤ assertion_failure_written (buf s) ≤ assertion_count (buf s)
  ∧ assertion_count (buf s) ≤ Z.of_nat (length calls).
Proof.
  intros Hsize s s'.
  assert (assertion_count (buf s) ≤ assertion_count (buf s')
          ∧ assertion_failure_written (buf s) ≤ assertion_failure_written (buf s'))
    as [Hc Hw].
  { unfold s'. clear s'. induction more as [|j more IH] using rev_ind.
    - by rewrite app_nil_r.
    - rewrite app_assoc, run_snoc.
      destruct (step_counters (run N C (sched ++ more) (launch N C calls)) j).
      + by rewrite launch_size.
      + by apply invariant_reachable.
      + lia. }
  pose proof (invariant_reachable N C calls sched Hsize) as Hinv. fold s in Hinv.
  split_and!; [done..| | |].
  - rewrite (inv_written _ _ _ Hinv). apply tally_bounds.
  - rewrite (inv_written _ _ _ Hinv), (inv_count _ _ _ Hinv).
    apply tally_mono. intros t. by apply published_reserved.
  - rewrite (inv_count _ _ _ Hinv). unfold s.
    rewrite <- (launch_size N C calls sched). apply tally_bounds.
Qed.

(** The indices below [assertion_count] are all taken. *)
Lemma indices_taken (calls : list arguments) (sched : list nat) (n : Z) :
  Z.of_nat (length calls) < 2 ^ 32 →
  let s := run N C sched (launch N C calls) in
  0 ≤ n < assertion_count (buf s) →
  ∃ i t, pool s !! i = Some t ∧ t_nid t = Some n.
Proof.
  intros Hsize. induction sched as [|j sched IH] using rev_ind; simpl.
  - lia.
  - rewrite run_snoc. simpl in IH.
    pose proof (invariant_reachable N C calls sched Hsize) as Hinv.
    set (s := run N C sched (launch N C calls)) in *.
    unfold step. destruct (pool s !! j) as [t0|] eqn:Hj; [|apply IH].
    pose proof (inv_coherent _ _ _ Hinv j t0 Hj) as Hcoh.
    pose proof (dsa_add_new_assertion_failure_count N C (buf s) t0 Hcoh) as Hcount.
    pose proof (dsa_add_new_assertion_failure_nid N C (buf s) t0) as Hnid.
    destruct (dsa_add_new_assertion_failure N C (buf s) t0) as [b' t'] eqn:Hrun.
    simpl in *. intros Hn.
    assert (n < assertion_count (buf s) ∨ t_nid t' = Some n) as [Hlt|Hnew].
    { destruct Hcount as [[Hsame _]|(Hwrap & Hres & Hres')]; [left; lia|].
      destruct Hnid as [Hsame|[_ Hnew]].
      { unfold reserved in Hres, Hres'. rewrite Hsame in Hres'.
        destruct (t_nid t0); done. }
      pose proof (tally_bounds reserved (pool s)) as Hb.
      pose proof (inv_count _ _ _ Hinv) as Hc.
      assert (tally reserved (pool s) < Z.of_nat (length (pool s))).
      { pose proof (tally_bounds reserved (<[j:=t']> (pool s))) as Hb'.
        rewrite (tally_insert _ _ _ _ _ Hj), length_insert, Hres, Hres' in Hb'. lia. }
      assert (length (pool s) = length calls) as Hlen by apply launch_size.
      rewrite wrap32_small in Hwrap by lia.
      destruct (decide (n = assertion_count (buf s))) as [->|]; [by right|left; lia]. }
    + destruct (IH (conj (proj1 Hn) Hlt)) as (i & t & Hi & Hti).
      destruct (decide (i = j)) as [->|Hne].
      * exists j, t'. split; [apply list_lookup_insert_eq; by eapply lookup_lt_Some|].
        rewrite Hj in Hi. injection Hi as ->.
        destruct Hnid as [->|[Hpc _]]; [done|].
        unfold coherent in Hcoh. rewrite Hpc in Hcoh. destruct Hcoh. congruence.
      * exists i, t. by rewrite list_lookup_insert_ne.
    + exists j, t'. split; [|done].
      apply list_lookup_insert_eq. by eapply lookup_lt_Some.
Qed.

(** X6: in a launch of fewer than [2^32] threads on a zeroed buffer, the
    indices the threads hold are exactly the numbers from [0] up to
    [assertion_count], each held by one thread. *)
Theorem indices_consecutive (calls : list arguments) (sched : list nat) :
  Z.of_nat (length calls) < 2 ^ 32 →
  let s := run N C sched (launch N C calls) in
  (∀ n, 0 ≤ n < assertion_count (buf s)
        ↔ ∃ i t, pool s !! i = Some t ∧ t_nid t = Some n)
  ∧ (∀ i j t t' n, pool s !! i = Some t → pool s !! j = Some t' →
                   t_nid t = Some n → t_nid t' = Some n → i = j).
Proof.
  intros Hsize s. pose proof (invariant_reachable N C calls sched Hsize) as Hinv.
  fold s in Hinv. split.
  - intros n. split.
    + by apply indices_taken.
    + intros (i & t & Hi & Hn). by apply (inv_nid_below _ _ _ Hinv i t).
  - apply (inv_nid_distinct _ _ _ Hinv).
Qed.

(** X7: in a launch of fewer than [2^32] threads on a zeroed buffer, the
    array keeps its [C] slots, and a slot whose index no thread has
    reserved is still zero-initialised. *)
Theorem free_slots_zeroed (calls : list arguments) (sched : list nat) (n : Z) :
  Z.of_nat (length calls) < 2 ^ 32 →
  let s := run N C sched (launch N C calls) in
  assertion_count (buf s) ≤ n < C →
  length (assertions (buf s)) = Z.to_nat C
  ∧ assertions (buf s) !! Z.to_nat n = Some (zero_record N)
  ∧ ∀ i t, pool s !! i = Some t → t_nid t ≠ Some n.
Proof.
  intros Hsize s Hn. pose proof (invariant_reachable N C calls sched Hsize) as Hinv.
  fold s in Hinv. split_and!.
  - apply (inv_slots _ _ _ Hinv).
  - by apply (inv_free _ _ _ Hinv).
  - intros i t Hi Hnid. pose proof (inv_nid_below _ _ _ Hinv i t n Hi Hnid). lia.
Qed.

End RecorderLaunch.

Section RecorderOutcome.

Context (N C : Z).

(** In a launch, a call with a buffer that has returned holds an
    index. *)
Lemma returned_reserved (calls : list arguments) (sched : list nat) (i : nat) (t : thread) :
  Z.of_nat (length calls) < 2 ^ 32 →
  pool (run N C sched (launch N C calls)) !! i = Some t →
  t_pc t = Returned →
  assertions_data (t_args t) = launch_buffer →
  is_Some (t_nid t).
Proof.
  intros Hsize Hi Hpc Hbuf.
  pose proof (invariant_reachable N C calls sched Hsize) as Hinv.
  pose proof (inv_coherent _ _ _ Hinv i t Hi) as Hcoh.
  unfold coherent in Hcoh. rewrite Hpc in Hcoh.
  destruct Hcoh as [(Hnull & _)|[(n & -> & _)|(n & -> & _)]]; [congruence|done..].
Qed.

(** X8: in a launch of fewer than [2^32] threads on a zeroed buffer, a
    call with a buffer and C strings as sources that has returned holds
    an index that is at most the capacity.  When the index is below the
    capacity, its slot reads back as the record of the call: each string
    field reads as the source string when that is shorter than [N-1]
    characters and as the empty string otherwise, and line, caller and
    coordinates are those of the call.  When the index is the capacity,
    the array has no slot for it. *)
Theorem returned_record_reads_back (calls : list arguments) (sched : list nat)
    (i : nat) (a : arguments) (t : thread) :
  Z.of_nat (length calls) < 2 ^ 32 →
  0 < N →
  calls !! i = Some a →
  assertions_data a = launch_buffer →
  c_strings a →
  let s := run N C sched (launch N C calls) in
  pool s !! i = Some t →
  t_pc t = Returned →
  ∃ nid,
    t_nid t = Some nid ∧ 0 ≤ nid ≤ C
    ∧ (nid = C → assertions (buf s) !! Z.to_nat nid = None)
    ∧ (nid < C →
       ∃ r,
         assertions (buf s) !! Z.to_nat nid = Some r
         ∧ (c_str (assertion_msg r)
            = (λ k, kept_string N k (assertion_msg0 a)) <$> first_nul (assertion_msg0 a))
         ∧ (c_str (filename r)
            = (λ k, kept_string N k (filename0 a)) <$> first_nul (filename0 a))
         ∧ (c_str (function_name r)
            = (λ k, kept_string N k (function_name0 a)) <$> first_nul (function_name0 a))
         ∧ line_number r = line_number0 a
         ∧ caller r = caller0 a
         ∧ block_id r = (dim_x (block_id0 a), dim_y (block_id0 a), dim_z (block_id0 a))
         ∧ thread_id r
           = (dim_x (thread_id0 a), dim_y (thread_id0 a), dim_z (thread_id0 a))).
Proof.
  intros Hsize HN Ha Hbuf ([k1 H1] & [k2 H2] & [k3 H3]) s Hi Hpc.
  destruct (run_reaches N C _ _ _ _ Hi) as (a' & Ha' & Hargs%call_reaches_args).
  assert (a' = a) as -> by congruence.
  pose proof (invariant_reachable N C calls sched Hsize) as Hinv. fold s in Hinv.
  destruct (returned_reserved calls sched i t Hsize Hi Hpc) as [nid Hnid].
  { by rewrite Hargs. }
  destruct (past_assignments N C calls sched i t nid Hsize Hi Hnid (or_intror Hpc))
    as (Hrange & _).
  exists nid. split_and!; [done|lia|lia| |].
  - intros ->. apply lookup_ge_None. rewrite (inv_slots _ _ _ Hinv). lia.
  - intros Hlt.
    destruct (slot_complete N C calls sched i t nid Hsize Hi Hnid (or_intror Hpc) Hlt)
      as (msg & file & func & Hmsg & Hfile & Hfunc & Hslot).
    rewrite Hargs in *.
    destruct (dstrcpy_zeroed_reads_back N _ k1 HN H1) as (d1 & tr1 & Hd1 & _ & Hs1).
    destruct (dstrcpy_zeroed_reads_back N _ k2 HN H2) as (d2 & tr2 & Hd2 & _ & Hs2).
    destruct (dstrcpy_zeroed_reads_back N _ k3 HN H3) as (d3 & tr3 & Hd3 & _ & Hs3).
    rewrite Hd1 in Hmsg. rewrite Hd2 in Hfile. rewrite Hd3 in Hfunc.
    injection Hmsg as <-. injection Hfile as <-. injection Hfunc as <-.
    eexists. split_and!; [exact Hslot|..]; simpl; try done.
    + by rewrite Hs1, H1.
    + by rewrite Hs2, H2.
    + by rewrite Hs3, H3.
Qed.

Lemma fill_prefix (l1 l2 : list stmt) (a : arguments) (r : DeviceAssertionData) :
  is_Some (fill N (l1 ++ l2) a r) → is_Some (fill N l1 a r).
Proof.
  unfold fill. rewrite foldl_app.
  destruct (foldl _ (Some r) l1) as [r'|]; [by eexists|].
  intros [r' Hr']. exfalso. induction l2 as [|s l2 IH]; [done|]. by apply IH.
Qed.

(** With C strings as sources, the assignments of lines 66-76 on a
    zeroed slot have defined behaviour. *)
Lemma fill_defined (a : arguments) (st : stmt) :
  0 < N → c_strings a →
  is_Some (fill N (stmts_before st ++ [st]) a (zero_record N)).
Proof.
  intros HN ([k1 H1] & [k2 H2] & [k3 H3]).
  apply (fill_prefix _ (drop (S (stmt_index st)) all_stmts)).
  replace ((stmts_before st ++ [st]) ++ drop (S (stmt_index st)) all_stmts)
    with all_stmts by (by destruct st).
  destruct (dstrcpy_zeroed_reads_back N _ k1 HN H1) as (d1 & tr1 & Hd1 & _).
  destruct (dstrcpy_zeroed_reads_back N _ k2 HN H2) as (d2 & tr2 & Hd2 & _).
  destruct (dstrcpy_zeroed_reads_back N _ k3 HN H3) as (d3 & tr3 & Hd3 & _).
  unfold fill. simpl. rewrite Hd1. simpl. rewrite Hd2. simpl. rewrite Hd3. simpl.
  by eexists.
Qed.

Lemma logged_stmts_log_of (nid : Z) (l : list stmt) :
  logged_stmts (log_of nid l) = l.
Proof.
  unfold logged_stmts, log_of. simpl.
  induction l as [|s l IH]; [done|]. rewrite fmap_cons. simpl. by rewrite IH.
Qed.

(** In a launch, an assignment of a call with C strings whose index is
    below the capacity has defined behaviour. *)
Lemma assignment_defined (s : state) (i : nat) (t : thread) (st : stmt) (nid : Z) :
  invariant N C s → 0 < N →
  pool s !! i = Some t → t_pc t = LW st → t_nid t = Some nid →
  c_strings (t_args t) → nid < C →
  is_Some (write_slot N (buf s) nid st (t_args t)).
Proof.
  intros Hinv HN Hi Hpc Hnid Hstr Hlt.
  pose proof (inv_coherent _ _ _ Hinv i t Hi) as Hcoh.
  unfold coherent in Hcoh. rewrite Hpc in Hcoh.
  destruct Hcoh as (nid' & Hnid' & Hlog & _).
  assert (nid' = nid) as -> by congruence.
  assert (faulted t = false) as Hfault by (unfold faulted; by rewrite Hpc).
  pose proof (inv_slot _ _ _ Hinv i t nid Hi Hnid Hfault Hlt) as Hslot.
  rewrite Hlog, logged_stmts_log_of in Hslot.
  pose proof (inv_nid_below _ _ _ Hinv i t nid Hi Hnid) as Hpos.
  destruct (lookup_lt_is_Some_2 (assertions (buf s)) (Z.to_nat nid)) as [r Hr].
  { rewrite (inv_slots _ _ _ Hinv). lia. }
  destruct (fill_defined (t_args t) st HN Hstr) as [r' Hr'].
  rewrite fill_snoc, <- Hslot, Hr in Hr'. simpl in Hr'.
  unfold write_slot, behind. rewrite (inv_slots _ _ _ Hinv).
  replace (_ <=? _) with false by (symmetry; apply Z.leb_gt; lia).
  rewrite decide_True by lia. rewrite Hr. simpl.
  rewrite Hr'. by eexists.
Qed.

Lemma own_steps_snoc (i j : nat) (sched : list nat) :
  own_steps i (sched ++ [j])
  = (own_steps i sched + if decide (j = i) then 1 else 0)%nat.
Proof.
  unfold own_steps. rewrite filter_app, length_app. f_equal.
  rewrite filter_cons. by destruct (decide (j = i)).
Qed.

(** In a launch, an assignment of a call with C strings has a result:
    on its slot when the index is below the capacity, behind the array
    when it is the capacity. *)
Lemma assignment_goes_on (s : state) (i : nat) (t : thread) (st : stmt) (nid : Z) :
  invariant N C s → 0 < N →
  pool s !! i = Some t → t_pc t = LW st → t_nid t = Some nid →
  c_strings (t_args t) →
  is_Some (write_slot N (buf s) nid st (t_args t)).
Proof.
  intros Hinv HN Hi Hpc Hnid Hstr.
  destruct (Z.lt_ge_cases nid C) as [Hlt|Hge].
  - by apply (assignment_defined s i t).
  - pose proof (inv_nid_below _ _ _ Hinv i t nid Hi Hnid) as Hpos.
    rewrite write_slot_behind; [by eexists|].
    rewrite (inv_slots _ _ _ Hinv). lia.
Qed.

(** A call with a buffer and C strings advances by one program point
    with each of its statements until it returns or waits: it never
    stops on the way. *)
Lemma call_progress (calls : list arguments) (sched : list nat)
    (i : nat) (a : arguments) (t : thread) :
  Z.of_nat (length calls) < 2 ^ 32 → 0 < N →
  calls !! i = Some a → assertions_data a = launch_buffer → c_strings a →
  pool (run N C sched (launch N C calls)) !! i = Some t →
  faulted t = false
  ∧ (t_pc t = L58 ∨ t_pc t = Returned ∨ rank (t_pc t) = own_steps i sched).
Proof.
  intros Hsize HN Ha Hbuf Hstr. revert t.
  induction sched as [|j sched IH] using rev_ind; intros t.
  - simpl. rewrite list_lookup_fmap, Ha. intros [= <-]. split; [done|]. by right; right.
  - rewrite run_snoc, own_steps_snoc.
    pose proof (invariant_reachable N C calls sched Hsize) as Hinv.
    set (s := run N C sched (launch N C calls)) in *.
    intros [[Hne Hi]|[-> (t0 & Hi & ->)]]%step_lookup.
    { rewrite decide_False by done. rewrite Nat.add_0_r. by apply IH. }
    rewrite decide_True by done.
    destruct (IH t0 Hi) as [Hfault Hrank].
    pose proof (inv_coherent _ _ _ Hinv _ _ Hi) as Hcoh.
    destruct (run_reaches N C _ _ _ _ Hi) as (a' & Ha' & Hargs%call_reaches_args).
    assert (a' = a) as -> by congruence.
    unfold coherent in Hcoh. unfold faulted in *.
    unfold dsa_add_new_assertion_failure.
    destruct (t_pc t0) as [| | | |st| | |st] eqn:Epc; simpl in Hrank; try done.
    + rewrite Hargs, Hbuf. simpl. split; [done|]. right; right.
      destruct Hrank as [|[|<-]]; [done..|lia].
    + simpl. split; [done|]. right; right.
      destruct Hrank as [|[|<-]]; [done..|lia].
    + destruct Hcoh as (nid & Hnid & _). rewrite Hnid.
      destruct (nid >? C); simpl; (split; [done|]); [by left|right; right].
      destruct Hrank as [|[|<-]]; [done..|]. simpl. lia.
    + destruct (_ <? _); simpl; [rewrite Epc|]; split; auto.
    + destruct Hcoh as (nid & Hnid & Hlog & Hle). rewrite Hnid.
      assert (c_strings (t_args t0)) as Hstr0 by (by rewrite Hargs).
      destruct (assignment_goes_on s i t0 st nid Hinv HN Hi Epc Hnid Hstr0)
        as [b' ->].
      simpl. split; [by destruct st|]. right; right.
      destruct Hrank as [|[|<-]]; [done..|]. destruct st; simpl; lia.
    + simpl. split; auto.
    + simpl. rewrite Epc. split; auto.
Qed.

(** X9: in a launch of fewer than [2^32] threads on a zeroed buffer, a
    call with a buffer and C strings as sources that has been given
    fifteen statements, however they interleave with those of the other
    threads, has reached its end.  With an index that is at most the
    capacity it has executed line 80 and returned: its record is in its
    slot when the index is below the capacity, and the array has no slot
    for it when the index is the capacity.  With an index above the
    capacity it is in the busy-wait. *)
Theorem call_outcome (calls : list arguments) (sched : list nat)
    (i : nat) (a : arguments) (t : thread) :
  Z.of_nat (length calls) < 2 ^ 32 → 0 < N →
  calls !! i = Some a → assertions_data a = launch_buffer → c_strings a →
  (15 ≤ own_steps i sched)%nat →
  let s := run N C sched (launch N C calls) in
  pool s !! i = Some t →
  ∃ nid, t_nid t = Some nid ∧ 0 ≤ nid
       ∧ ((nid ≤ C ∧ t_pc t = Returned ∧ published t = true
           ∧ t_log t = log_of nid all_stmts ++ [MWritten]
           ∧ (nid < C ↔ is_Some (assertions (buf s) !! Z.to_nat nid)))
          ∨ (C < nid ∧ t_pc t = L58 ∧ t_log t = [MCount])).
Proof.
  intros Hsize HN Ha Hbuf Hstr Hsteps s Hi.
  destruct (call_progress calls sched i a t) as [Hfault Hrank]; [done..|].
  pose proof (invariant_reachable N C calls sched Hsize) as Hinv. fold s in Hinv.
  pose proof (inv_coherent _ _ _ Hinv i t Hi) as Hcoh.
  destruct (run_reaches N C _ _ _ _ Hi) as (a' & Ha' & Hargs%call_reaches_args).
  assert (a' = a) as -> by congruence.
  assert (t_pc t = L58 ∨ t_pc t = Returned) as [Hpc|Hpc].
  { destruct Hrank as [Hpc|[Hpc|Hrank]]; auto.
    unfold faulted in Hfault.
    destruct (t_pc t) as [| | | |st| | |st]; simpl in Hrank; auto; try lia.
    destruct st; simpl in Hrank; lia. }
  - unfold coherent in Hcoh. rewrite Hpc in Hcoh.
    destruct Hcoh as (nid & Hnid & Hlog & Hgt). exists nid.
    pose proof (inv_nid_below _ _ _ Hinv i t nid Hi Hnid).
    split_and!; [done|lia|]. by right.
  - destruct (returned_reserved calls sched i t Hsize Hi Hpc) as [nid Hnid].
    { by rewrite Hargs. }
    destruct (past_assignments N C calls sched i t nid Hsize Hi Hnid (or_intror Hpc))
      as (Hrange & _ & Hpub & Hlog).
    assert (returned_with_index t = true) as Hret.
    { unfold returned_with_index. by rewrite Hpc, Hnid. }
    rewrite Hret in Hpub, Hlog.
    exists nid. split_and!; [done|lia|]. left. split_and!; [lia|done..|].
    rewrite lookup_lt_is_Some, (inv_slots _ _ _ Hinv). lia.
Qed.

End RecorderOutcome.

(** * The number of published records *)

Section RecorderBound.

Context (N C : Z).

(** Threads that satisfy [P] and hold pairwise distinct indices below
    [n] are at most [n]. *)
Lemma tally_indexed (P : thread → bool) (t0 : thread) (n : nat) : ∀ l : list thread,
  P t0 = false → t_nid t0 = None →
  (∀ i t, l !! i = Some t → P t = true →
          ∃ nid, t_nid t = Some nid ∧ 0 ≤ nid < Z.of_nat n) →
  (∀ i j t t' nid, l !! i = Some t → l !! j = Some t' →
                   t_nid t = Some nid → t_nid t' = Some nid → i = j) →
  tally P l ≤ Z.of_nat n.
Proof.
  induction n as [|n IH]; intros l H0 Hnone0 Hbelow Hdistinct.
  - assert (tally P l ≤ tally (λ _, false) l) as Hle.
    { apply tally_mono. intros t [i Hi]%list_elem_of_lookup HP.
      destruct (Hbelow i t Hi HP) as (nid & _ & Hnid). lia. }
    assert (tally (λ _, false) l = 0) as Hnone.
    { clear. induction l as [|t l IHl]; simpl; [done|]. by rewrite IHl. }
    lia.
  - destruct (list_find (λ t, P t = true ∧ t_nid t = Some (Z.of_nat n)) l)
      as [[i t]|] eqn:Hfind.
    + apply list_find_Some in Hfind as (Hi & [HP Hnid] & _).
      pose proof (IH (<[i:=t0]> l) H0 Hnone0) as Hrest.
      rewrite (tally_insert _ _ _ _ _ Hi), HP, H0 in Hrest.
      assert (tally P l - 1 + 0 ≤ Z.of_nat n); [|lia].
      apply Hrest.
      * intros j t' [(<- & <- & _)|[Hne Hj]]%list_lookup_insert_Some HP';
          [congruence|].
        destruct (Hbelow j t' Hj HP') as (nid & Hnid' & Hrange).
        exists nid. split; [done|].
        destruct (decide (nid = Z.of_nat n)) as [->|]; [|lia].
        destruct Hne. by apply (Hdistinct i j t t' (Z.of_nat n)).
      * intros j k t1 t2 nid
          [(<- & <- & _)|[Hj Hj']]%list_lookup_insert_Some
          [(<- & <- & _)|[Hk Hk']]%list_lookup_insert_Some H1 H2;
          try done; try congruence.
        by apply (Hdistinct j k t1 t2 nid).
    + assert (tally P l ≤ Z.of_nat n); [|lia].
      apply IH; [done..| |done].
      intros i t Hi HP. destruct (Hbelow i t Hi HP) as (nid & Hnid & Hrange).
      exists nid. split; [done|].
      destruct (decide (nid = Z.of_nat n)) as [->|]; [|lia].
      pose proof (list_find_None (λ t, P t = true ∧ t_nid t = Some (Z.of_nat n)) l)
        as [Hnone _].
      specialize (Hnone Hfind). rewrite Forall_forall in Hnone.
      destruct (Hnone t); [by apply list_elem_of_lookup; exists i|done].
Qed.

(** X12: in a launch of fewer than [2^32] threads on a zeroed buffer of
    [C] slots, [assertion_failure_written] never exceeds [C + 1],
    however many threads fail: the calls that execute line 80 hold
    distinct indices from [0] to [C].  A call whose index is above the
    capacity has changed [assertion_count] only and is at the test of
    line 46 or in the busy-wait: it has not returned. *)
Theorem written_bounded (calls : list arguments) (sched : list nat) :
  Z.of_nat (length calls) < 2 ^ 32 → 0 ≤ C →
  let s := run N C sched (launch N C calls) in
  assertion_failure_written (buf s) ≤ C + 1
  ∧ ∀ i t nid, pool s !! i = Some t → t_nid t = Some nid → C < nid →
               (t_pc t = L46 ∨ t_pc t = L58) ∧ t_log t = [MCount].
Proof.
  intros Hsize HC s.
  pose proof (invariant_reachable N C calls sched Hsize) as Hinv. fold s in Hinv.
  split.
  - rewrite (inv_written _ _ _ Hinv).
    replace (C + 1) with (Z.of_nat (Z.to_nat (C + 1))) by lia.
    apply (tally_indexed published
             (entry {| assertions_data := nullptr; assertion_msg0 := [];
                       filename0 := []; function_name0 := [];
                       line_number0 := 0; caller0 := 0;
                       block_id0 := {| dim_x := 0; dim_y := 0; dim_z := 0 |};
                       thread_id0 := {| dim_x := 0; dim_y := 0; dim_z := 0 |} |}));
      [done|done| |apply (inv_nid_distinct _ _ _ Hinv)].
    intros i t Hi Hpub.
    pose proof (inv_coherent _ _ _ Hinv i t Hi) as Hcoh.
    destruct (published_Returned C t Hcoh Hpub) as [Hpc _].
    unfold coherent in Hcoh. rewrite Hpc in Hcoh. unfold published in Hpub.
    destruct Hcoh as [(_ & _ & Hlog)|[(n & _ & Hlog & _)|(n & Hnid & _ & Hle)]].
    + by rewrite Hlog in Hpub.
    + by rewrite Hlog in Hpub.
    + exists n. split; [done|].
      pose proof (inv_nid_below _ _ _ Hinv i t n Hi Hnid). lia.
  - intros i t nid Hi Hnid Hgt.
    pose proof (inv_coherent _ _ _ Hinv i t Hi) as Hcoh.
    pose proof (returned_published N C calls sched i t Hsize Hi) as Hret.
    unfold coherent in Hcoh. rewrite Hnid in *.
    destruct (t_pc t) as [| | | |st| | |st].
    1-2: by destruct Hcoh.
    + destruct Hcoh as (n & _ & Hlog). split; [by left|done].
    + destruct Hcoh as (n & _ & Hlog & _). split; [by right|done].
    + destruct Hcoh as (n & [= <-] & _ & Hle). lia.
    + destruct Hcoh as (n & [= <-] & _ & Hle). lia.
    + destruct Hcoh as [(_ & [=] & _)|[(n & _ & Hlog & _)|(n & [= <-] & _ & Hle)]];
        [|lia].
      specialize (Hret eq_refl (mk_is_Some _ _ eq_refl)).
      unfold published in Hret. by rewrite Hlog in Hret.
    + destruct Hcoh as (n & [= <-] & _ & Hle). lia.
Qed.

End RecorderBound.

(** * The assertion macro *)

Section Kernel.

Context (N C : Z).

Lemma kernel_run_snoc (sched : list nat) (i : nat) (s : kernel_state) :
  kernel_run N C (sched ++ [i]) s = kernel_step N C (kernel_run N C sched s) i.
Proof. unfold kernel_run. by rewrite foldl_snoc. Qed.

Lemma calls_of_launch (threads : list (bool * arguments)) :
  calls_of (kernel_launch N C threads) = launch N C (snd <$> threads).
Proof.
  unfold calls_of, kernel_launch, launch. simpl. f_equal.
  rewrite <- !list_fmap_compose. by apply list_fmap_ext.
Qed.

(** A statement of a kernel thread is a statement of its call, or leaves
    the calls and the buffer as they are. *)
Lemma calls_of_step (s : kernel_state) (i : nat) :
  calls_of (kernel_step N C s i) = calls_of s
  ∨ calls_of (kernel_step N C s i) = step N C (calls_of s) i.
Proof.
  unfold kernel_step. destruct (k_pool s !! i) as [k|] eqn:Hi; [|by left].
  assert (∀ k', call_of k' = call_of k →
                calls_of {| k_buf := k_buf s; k_pool := <[i:=k']> (k_pool s) |}
                = calls_of s) as Hsame.
  { intros k' Hk'. unfold calls_of. simpl. f_equal.
    rewrite list_fmap_insert, Hk'. apply list_insert_id.
    by rewrite list_lookup_fmap, Hi. }
  unfold CUDA_KERNEL_ASSERT2. destruct (k_pc k) as [|t|t|] eqn:Hpc.
  - left. destruct (negb (k_condition k)); apply Hsame; unfold call_of; simpl;
      by rewrite Hpc.
  - assert (calls_of
              (let '(b', k') :=
                 let '(b', t') := dsa_add_new_assertion_failure N C (k_buf s) t in
                 (b', kgoto (K93 t') k) in
               {| k_buf := b'; k_pool := <[i:=k']> (k_pool s) |})
            = step N C (calls_of s) i) as Hstep.
    { unfold step, calls_of. cbn [buf pool].
      rewrite list_lookup_fmap, Hi. cbn [fmap option_fmap option_map].
      replace (call_of k) with t by (unfold call_of; by rewrite Hpc).
      destruct (dsa_add_new_assertion_failure N C (k_buf s) t) as [b' t'].
      cbn [k_buf k_pool]. by rewrite list_fmap_insert. }
    destruct (t_pc t); try (by right).
    left. apply Hsame. unfold call_of. simpl. by rewrite Hpc.
  - left. by apply Hsame.
  - left. by apply Hsame.
Qed.

(** The calls of a kernel launch run as a launch of the recorder. *)
Lemma kernel_run_calls (threads : list (bool * arguments)) (ksched : list nat) :
  ∃ sched, calls_of (kernel_run N C ksched (kernel_launch N C threads))
           = run N C sched (launch N C (snd <$> threads)).
Proof.
  induction ksched as [|i ksched [sched IH]] using rev_ind.
  - exists []. apply calls_of_launch.
  - rewrite kernel_run_snoc.
    destruct (calls_of_step (kernel_run N C ksched (kernel_launch N C threads)) i)
      as [->| ->].
    + by exists sched.
    + exists (sched ++ [i]). by rewrite run_snoc, IH.
Qed.

(** What the program point of a kernel thread says about its condition
    and its call. *)
Lemma kernel_thread_state (threads : list (bool * arguments)) (ksched : list nat)
    (i : nat) (k : kernel_thread) :
  k_pool (kernel_run N C ksched (kernel_launch N C threads)) !! i = Some k →
  threads !! i = Some (k_condition k, k_arguments k)
  ∧ match k_pc k with
    | K91 => True
    | K93 t => k_condition k = false
    | K106 t => k_condition k = false ∧ t_pc t = Returned
    | KPast => k_condition k = true
    end.
Proof.
  revert k. induction ksched as [|j ksched IH] using rev_ind; intros k.
  - simpl. rewrite list_lookup_fmap.
    destruct (threads !! i) as [[c a]|]; [|done]. by intros [= <-].
  - rewrite kernel_run_snoc. unfold kernel_step.
    destruct (k_pool _ !! j) as [k0|] eqn:Hj; [|apply IH].
    destruct (CUDA_KERNEL_ASSERT2 N C _ k0) as [b' k'] eqn:Hstep. simpl.
    intros [(<- & <- & _)|[_ Hi]]%list_lookup_insert_Some; [|by apply IH].
    destruct (IH k0 Hj) as [Hth Hpc]. unfold CUDA_KERNEL_ASSERT2 in Hstep.
    destruct (k_pc k0) as [|t|t|] eqn:Epc.
    + destruct (negb (k_condition k0)) eqn:Hc; injection Hstep as <- <-; simpl.
      * split; [done|]. by apply negb_true_iff.
      * split; [done|]. by apply negb_false_iff.
    + destruct (t_pc t) eqn:Et; try (injection Hstep as <- <-; by simpl).
      all: destruct (dsa_add_new_assertion_failure N C _ t);
        injection Hstep as <- <-; by simpl.
    + injection Hstep as <- <-. by rewrite Epc.
    + injection Hstep as <- <-. by rewrite Epc.
Qed.

(** X10: when the condition of every thread of a kernel holds, no thread
    ever enters the call or traps, and the buffer stays as the host
    zero-initialised it: [assertion_count] stays [0]. *)
Theorem passing_assertions_leave_no_trace (threads : list (bool * arguments))
    (ksched : list nat) :
  Forall (λ ca, ca.1 = true) threads →
  let s := kernel_run N C ksched (kernel_launch N C threads) in
  k_buf s = zero_buffer N C
  ∧ ∀ i k, k_pool s !! i = Some k → k_pc k = K91 ∨ k_pc k = KPast.
Proof.
  intros Hall s.
  assert (∀ ksched i k,
            k_pool (kernel_run N C ksched (kernel_launch N C threads)) !! i = Some k →
            k_pc k = K91 ∨ k_pc k = KPast) as Hpc.
  { intros ks i k Hi. destruct (kernel_thread_state threads ks i k Hi) as [Hth Hk].
    rewrite Forall_forall in Hall.
    assert (k_condition k = true) as Hc.
    { apply (Hall (k_condition k, k_arguments k)). apply list_elem_of_lookup. eauto. }
    destruct (k_pc k); auto; [|destruct Hk]; congruence. }
  split; [|apply Hpc].
  unfold s. clear s. induction ksched as [|j ksched IH] using rev_ind; [done|].
  rewrite kernel_run_snoc. unfold kernel_step.
  destruct (k_pool _ !! j) as [k0|] eqn:Hj; [|done].
  destruct (kernel_thread_state threads ksched j k0 Hj) as [_ Hk].
  unfold CUDA_KERNEL_ASSERT2.
  destruct (Hpc ksched j k0 Hj) as [-> | ->]; [|done].
  by destruct (negb (k_condition k0)).
Qed.

(** X11: in a kernel of fewer than [2^32] threads on a zeroed buffer, a
    thread that has trapped is one whose condition failed and whose call
    has returned.  Either its buffer pointer is null and the call changed
    nothing, or the call holds an index that is at most the capacity and
    has executed the eleven assignments and line 80 before the trap: with
    an index below the capacity its complete record is in its slot, and
    with the index equal to the capacity the array has no slot for it.
    No thread traps before its call has executed line 80, and no thread
    whose index is above the capacity traps. *)
Theorem trap_follows_publication (threads : list (bool * arguments))
    (ksched : list nat) (i : nat) (k : kernel_thread) (t : thread) :
  Z.of_nat (length threads) < 2 ^ 32 →
  let s := kernel_run N C ksched (kernel_launch N C threads) in
  let z := zeros (Z.to_nat N) in
  k_pool s !! i = Some k →
  k_pc k = K106 t →
  k_condition k = false
  ∧ t_pc t = Returned
  ∧ t_args t = k_arguments k
  ∧ ((assertions_data (k_arguments k) = nullptr ∧ t_nid t = None ∧ t_log t = [])
     ∨ (assertions_data (k_arguments k) = launch_buffer
        ∧ published t = true
        ∧ ∃ nid,
            t_nid t = Some nid ∧ 0 ≤ nid ≤ C
            ∧ t_log t = log_of nid all_stmts ++ [MWritten]
            ∧ (nid = C → assertions (k_buf s) !! Z.to_nat nid = None)
            ∧ (nid < C →
               ∃ msg file func,
                 dstrcpy N z (assertion_msg0 (k_arguments k)) = Some msg
                 ∧ dstrcpy N z (filename0 (k_arguments k)) = Some file
                 ∧ dstrcpy N z (function_name0 (k_arguments k)) = Some func
                 ∧ assertions (k_buf s) !! Z.to_nat nid
                   = Some (record_of (k_arguments k) msg.1 file.1 func.1)))).
Proof.
  intros Hsize s z Hi Hpc.
  destruct (kernel_thread_state threads ksched i k Hi) as [Hth Hk].
  rewrite Hpc in Hk. destruct Hk as [Hcond Hret].
  destruct (kernel_run_calls threads ksched) as [sched Hcalls]. fold s in Hcalls.
  assert (pool (run N C sched (launch N C (snd <$> threads))) !! i = Some t) as Hit.
  { rewrite <- Hcalls. unfold calls_of. simpl. rewrite list_lookup_fmap, Hi. simpl.
    unfold call_of. by rewrite Hpc. }
  assert (k_buf s = buf (run N C sched (launch N C (snd <$> threads)))) as Hbuf'
    by (by rewrite <- Hcalls).
  destruct (run_reaches N C _ _ _ _ Hit) as (a & Ha & Hreach).
  rewrite list_lookup_fmap, Hth in Ha. injection Ha as <-.
  pose proof (call_reaches_args N C _ _ Hreach) as Hargs.
  split_and!; [done..|].
  destruct (assertions_data (k_arguments k)) eqn:Hbuf.
  - left. split; [done|].
    by destruct (null_call_states N C _ _ Hbuf Hreach) as [-> | ->].
  - right. split; [done|].
    assert (Z.of_nat (length (snd <$> threads)) < 2 ^ 32) as Hsize'
      by (by rewrite length_fmap).
    pose proof (invariant_reachable N C _ sched Hsize') as Hinv.
    destruct (returned_reserved N C _ sched i t Hsize' Hit Hret) as [nid Hnid].
    { by rewrite Hargs. }
    destruct (past_assignments N C _ sched i t nid Hsize' Hit Hnid (or_intror Hret))
      as (Hrange & _ & Hpub & Hlog).
    assert (returned_with_index t = true) as Hri.
    { unfold returned_with_index. by rewrite Hret, Hnid. }
    rewrite Hri in Hpub, Hlog.
    split; [done|]. exists nid. split_and!; [done|lia|lia|done| |].
    + intros ->. rewrite Hbuf'. apply lookup_ge_None.
      rewrite (inv_slots _ _ _ Hinv). lia.
    + intros Hlt. rewrite Hbuf', <- Hargs.
      apply (slot_complete N C _ sched i t nid Hsize' Hit Hnid (or_intror Hret) Hlt).
Qed.

End Kernel.

(** ** The scenarios again *)

Lemma dstrcpy_reads_back_iff_hello :
  first_nul hello = Some 5%nat ∧ Z.of_nat 5 < 8 - 1 ∧ (5 < length dirty8)%nat ∧
  ∃ d tr, dstrcpy 8 dirty8 hello = Some (d, tr)
        ∧ (c_str d = Some (take 5 hello) ↔ dirty8 !! 5%nat = Some x00).
Proof.
  split; [reflexivity|]. split; [lia|]. split; [simpl; lia|].
  apply (dstrcpy_reads_back_iff 8 dirty8 hello 5); [reflexivity|lia|simpl; lia].
Defined.

Lemma counters_grow_six :
  Z.of_nat (length six_calls) < 2 ^ 32 ∧
  let s := run 8 4 (one_by_one 3 15) (launch 8 4 six_calls) in
  let s' := run 8 4 (one_by_one 3 15 ++ one_by_one 6 15) (launch 8 4 six_calls) in
  assertion_count (buf s) ≤ assertion_count (buf s')
  ∧ assertion_failure_written (buf s) ≤ assertion_failure_written (buf s')
  ∧ 0 ≤ assertion_failure_written (buf s) ≤ assertion_count (buf s)
  ∧ assertion_count (buf s) ≤ Z.of_nat (length six_calls).
Proof.
  split; [reflexivity|].
  apply (counters_grow 8 4 six_calls (one_by_one 3 15) (one_by_one 6 15)).
  reflexivity.
Defined.

Lemma indices_consecutive_six :
  Z.of_nat (length six_calls) < 2 ^ 32 ∧
  let s := run 8 4 (one_by_one 6 15) (launch 8 4 six_calls) in
  (∀ n, 0 ≤ n < assertion_count (buf s)
        ↔ ∃ i t, pool s !! i = Some t ∧ t_nid t = Some n)
  ∧ (∀ i j t t' n, pool s !! i = Some t → pool s !! j = Some t' →
                   t_nid t = Some n → t_nid t' = Some n → i = j).
Proof.
  split; [reflexivity|].
  apply (indices_consecutive 8 4 six_calls (one_by_one 6 15)). reflexivity.
Defined.

Lemma free_slots_zeroed_six :
  Z.of_nat (length six_calls) < 2 ^ 32 ∧
  assertion_count (buf (run 8 4 (one_by_one 2 15) (launch 8 4 six_calls))) ≤ 3 < 4 ∧
  let s := run 8 4 (one_by_one 2 15) (launch 8 4 six_calls) in
  length (assertions (buf s)) = Z.to_nat 4
  ∧ assertions (buf s) !! Z.to_nat 3 = Some (zero_record 8)
  ∧ ∀ i t, pool s !! i = Some t → t_nid t ≠ Some 3.
Proof.
  assert (assertion_count (buf (run 8 4 (one_by_one 2 15) (launch 8 4 six_calls)))
          ≤ 3 < 4) as Hn.
  { vm_compute. split; [discriminate|reflexivity]. }
  split; [reflexivity|]. split; [exact Hn|].
  apply (free_slots_zeroed 8 4 six_calls (one_by_one 2 15) 3); [reflexivity|exact Hn].
Defined.

Lemma six_calls_c_strings : c_strings (failing_call x30 10 0).
Proof. repeat split; by eexists. Qed.

Lemma fifth_call_c_strings : c_strings (failing_call x34 14 4).
Proof. repeat split; by eexists. Qed.

Lemma returned_record_reads_back_six :
  Z.of_nat (length six_calls) < 2 ^ 32 ∧ 0 < 8 ∧
  six_calls !! 0%nat = Some (failing_call x30 10 0) ∧
  assertions_data (failing_call x30 10 0) = launch_buffer ∧
  c_strings (failing_call x30 10 0) ∧
  pool (run 8 4 (one_by_one 6 15) (launch 8 4 six_calls)) !! 0%nat
  = Some first_returned ∧
  t_pc first_returned = Returned ∧
  let a := failing_call x30 10 0 in
  let s := run 8 4 (one_by_one 6 15) (launch 8 4 six_calls) in
  ∃ nid,
    t_nid first_returned = Some nid ∧ 0 ≤ nid ≤ 4
    ∧ (nid = 4 → assertions (buf s) !! Z.to_nat nid = None)
    ∧ (nid < 4 →
       ∃ r,
         assertions (buf s) !! Z.to_nat nid = Some r
         ∧ (c_str (assertion_msg r)
            = (λ k, kept_string 8 k (assertion_msg0 a)) <$> first_nul (assertion_msg0 a))
         ∧ (c_str (filename r)
            = (λ k, kept_string 8 k (filename0 a)) <$> first_nul (filename0 a))
         ∧ (c_str (function_name r)
            = (λ k, kept_string 8 k (function_name0 a)) <$> first_nul (function_name0 a))
         ∧ line_number r = line_number0 a
         ∧ caller r = caller0 a
         ∧ block_id r = (dim_x (block_id0 a), dim_y (block_id0 a), dim_z (block_id0 a))
         ∧ thread_id r
           = (dim_x (thread_id0 a), dim_y (thread_id0 a), dim_z (thread_id0 a))).
Proof.
  split; [reflexivity|]. split; [lia|]. do 2 (split; [reflexivity|]).
  split; [exact six_calls_c_strings|]. do 2 (split; [reflexivity|]).
  apply (returned_record_reads_back 8 4 six_calls (one_by_one 6 15) 0
           (failing_call x30 10 0) first_returned);
    [reflexivity|lia|reflexivity|reflexivity|exact six_calls_c_strings
    |reflexivity|reflexivity].
Defined.

(** The fifth call has returned as well, with the index for which the
    array has no slot. *)
Example six_calls_fifth_returned :
  let s := run 8 4 (one_by_one 6 15) (launch 8 4 six_calls) in
  pool s !! 4%nat = Some fifth_returned
  ∧ assertions (buf s) !! 4%nat = None.
Proof. split; vm_compute; reflexivity. Qed.

Lemma call_outcome_six :
  Z.of_nat (length six_calls) < 2 ^ 32 ∧ 0 < 8 ∧
  six_calls !! 4%nat = Some (failing_call x34 14 4) ∧
  assertions_data (failing_call x34 14 4) = launch_buffer ∧
  c_strings (failing_call x34 14 4) ∧
  (15 ≤ own_steps 4 (one_by_one 6 15))%nat ∧
  pool (run 8 4 (one_by_one 6 15) (launch 8 4 six_calls)) !! 4%nat
  = Some fifth_returned ∧
  let s := run 8 4 (one_by_one 6 15) (launch 8 4 six_calls) in
  let t := fifth_returned in
  ∃ nid, t_nid t = Some nid ∧ 0 ≤ nid
       ∧ ((nid ≤ 4 ∧ t_pc t = Returned ∧ published t = true
           ∧ t_log t = log_of nid all_stmts ++ [MWritten]
           ∧ (nid < 4 ↔ is_Some (assertions (buf s) !! Z.to_nat nid)))
          ∨ (4 < nid ∧ t_pc t = L58 ∧ t_log t = [MCount])).
Proof.
  split; [reflexivity|]. split; [lia|]. do 2 (split; [reflexivity|]).
  split; [exact fifth_call_c_strings|]. split; [vm_compute; lia|].
  split; [reflexivity|].
  apply (call_outcome 8 4 six_calls (one_by_one 6 15) 4
           (failing_call x34 14 4) fifth_returned);
    [reflexivity|lia|reflexivity|reflexivity|exact fifth_call_c_strings
    |vm_compute; lia|reflexivity].
Defined.

Lemma passing_assertions_leave_no_trace_six :
  Forall (λ ca, ca.1 = true) six_passing ∧
  let s := kernel_run 8 4 (one_by_one 6 3) (kernel_launch 8 4 six_passing) in
  k_buf s = zero_buffer 8 4
  ∧ ∀ i k, k_pool s !! i = Some k → k_pc k = K91 ∨ k_pc k = KPast.
Proof.
  assert (Forall (λ ca, ca.1 = true) six_passing) as Hall.
  { repeat constructor. }
  split; [exact Hall|].
  apply (passing_assertions_leave_no_trace 8 4 six_passing (one_by_one 6 3)).
  exact Hall.
Defined.

Lemma trap_follows_publication_six :
  Z.of_nat (length six_failing) < 2 ^ 32 ∧
  k_pool (kernel_run 8 4 (one_by_one 6 17) (kernel_launch 8 4 six_failing)) !! 4%nat
  = Some fifth_trapped ∧
  k_pc fifth_trapped = K106 fifth_returned ∧
  let s := kernel_run 8 4 (one_by_one 6 17) (kernel_launch 8 4 six_failing) in
  let z := zeros (Z.to_nat 8) in
  let k := fifth_trapped in
  let t := fifth_returned in
  k_condition k = false
  ∧ t_pc t = Returned
  ∧ t_args t = k_arguments k
  ∧ ((assertions_data (k_arguments k) = nullptr ∧ t_nid t = None ∧ t_log t = [])
     ∨ (assertions_data (k_arguments k) = launch_buffer
        ∧ published t = true
        ∧ ∃ nid,
            t_nid t = Some nid ∧ 0 ≤ nid ≤ 4
            ∧ t_log t = log_of nid all_stmts ++ [MWritten]
            ∧ (nid = 4 → assertions (k_buf s) !! Z.to_nat nid = None)
            ∧ (nid < 4 →
               ∃ msg file func,
                 dstrcpy 8 z (assertion_msg0 (k_arguments k)) = Some msg
                 ∧ dstrcpy 8 z (filename0 (k_arguments k)) = Some file
                 ∧ dstrcpy 8 z (function_name0 (k_arguments k)) = Some func
                 ∧ assertions (k_buf s) !! Z.to_nat nid
                   = Some (record_of (k_arguments k) msg.1 file.1 func.1)))).
Proof.
  split; [reflexivity|]. do 2 (split; [reflexivity|]).
  apply (trap_follows_publication 8 4 six_failing (one_by_one 6 17) 4
           fifth_trapped fifth_returned); reflexivity.
Defined.

(** The six failing threads, each given the seventeen statements of the
    macro: the first five have trapped, the fifth with the index for
    which the array has no slot; the sixth is in the busy-wait of its
    call; [assertion_failure_written] is 5. *)
Example six_failing_threads :
  let s := kernel_run 8 4 (one_by_one 6 17) (kernel_launch 8 4 six_failing) in
  (λ k, match k_pc k with K106 _ => true | _ => false end) <$> k_pool s
  = [true; true; true; true; true; false]
  ∧ k_pool s !! 0%nat = Some first_trapped
  ∧ (t_pc ∘ call_of) <$> k_pool s
    = [Returned; Returned; Returned; Returned; Returned; L58]
  ∧ assertion_count (k_buf s) = 6
  ∧ assertion_failure_written (k_buf s) = 5.
Proof. repeat split; vm_compute; reflexivity. Qed.

Lemma written_bounded_six :
  Z.of_nat (length six_calls) < 2 ^ 32 ∧ 0 ≤ 4 ∧
  let s := run 8 4 (one_by_one 6 15) (launch 8 4 six_calls) in
  assertion_failure_written (buf s) ≤ 4 + 1
  ∧ ∀ i t nid, pool s !! i = Some t → t_nid t = Some nid → 4 < nid →
               (t_pc t = L46 ∨ t_pc t = L58) ∧ t_log t = [MCount].
Proof.
  split; [reflexivity|]. split; [lia|].
  apply (written_bounded 8 4 six_calls (one_by_one 6 15)); [reflexivity|lia].
Defined.
